(** * LUMINA GRID: the 16x16 step sequencer of [TenoriOn]

    A shallow embedding of the sequencer page (constants, [AudioEngine],
    the pattern grids and their pointer handlers, the visual effect
    simulation, the sequencer clock and the brightness query), followed by
    the properties of the specification that concern them.

    Conventions of the embedding.
    - A JavaScript number is a real number ([R]): rounding is left out.
      [NaN] is kept where it can arise: as the [None] of [Math_sqrt], and
      in the type [Number] of what the tempo and volume sliders deliver
      ([Number (e.target.value)]) and of what is computed from it.  Array
      indices and lengths are [nat], the step column is a [Z] (it can be
      [-1]).
    - [Date.now ()] and [Math.random ()] are inputs of the functions that
      call them.
    - React state setters [setX (prev => ...)] are embedded as the updater
      function from the previous to the next value of that state.
    - A JavaScript array is a [list]; a slot that can hold [undefined]
      has an [option] type, [None] standing for [undefined]. *)

From Stdlib Require Import Reals Lra Lia ZArith.
From stdpp Require Import base decidable option list strings gmap fin_maps.

(** ** Numbers *)

#[global] Instance R_inhabited : Inhabited R := populate 0%R.
#[global] Instance R_eq_dec : EqDecision R := Req_dec_T.
#[global] Instance Rlt_decision (x y : R) : Decision (x < y)%R := Rlt_dec x y.
#[global] Instance Rle_decision (x y : R) : Decision (x <= y)%R := Rle_dec x y.
#[global] Instance Rgt_decision (x y : R) : Decision (x > y)%R := Rgt_dec x y.
#[global] Instance Rge_decision (x y : R) : Decision (x >= y)%R := Rge_dec x y.

(** [Math.max], [Math.min] and [Math.abs] on numbers. *)
Definition Math_max (a b : R) : R := Rmax a b.
Definition Math_min (a b : R) : R := Rmin a b.
Definition Math_abs (a : R) : R := Rabs a.

(** [Math.sqrt]: the square root of a non-negative number, [NaN] (here
    [None]) of a negative one. *)
Definition Math_sqrt (x : R) : option R :=
  if decide (0 <= x)%R then Some (sqrt x) else None.

(** A number that can be [NaN]: the value [Number (e.target.value)] of
    an input element, and what the program computes from it. *)
Inductive Number :=
| Num (x : R)
| NaN.

(** [Math.max] and [Math.min] where an argument can be [NaN]: the result
    is [NaN] as soon as one argument is. *)
Definition Math_maxN (a b : Number) : Number :=
  match a, b with
  | Num x, Num y => Num (Math_max x y)
  | _, _ => NaN
  end.
Definition Math_minN (a b : Number) : Number :=
  match a, b with
  | Num x, Num y => Num (Math_min x y)
  | _, _ => NaN
  end.

(** [k * n] for a constant [k]. *)
Definition Nscale (k : R) (n : Number) : Number :=
  match n with
  | Num x => Num (k * x)
  | NaN => NaN
  end.

(** ** Constants *)

Module CONSTANTS.
Definition ROWS : nat := 16.
Definition COLS : nat := 16.
Definition DEFAULT_BPM : R := 120.
Definition BASE_FREQ : R := 174.61.
Definition MAX_EFFECTS : nat := 150.
Definition MIN_BPM : R := 60.
Definition MAX_BPM : R := 240.
Definition FLOOR_Y : R := 15.5.
End CONSTANTS.

Definition PENTATONIC_RATIOS : list R :=
  [4.0; 3.367; 3.0; 2.667; 2.378; 2.0; 1.683; 1.5;
   1.333; 1.189; 1.0; 0.841; 0.75; 0.667; 0.595; 0.5]%R.

Record LayerConfig := mkLayerConfig {
  layer_id : nat;
  layer_name : string;
  layer_type : string;
  layer_color : string;
  layer_baseOctave : R
}.

Definition LAYERS_CONFIG : list LayerConfig :=
  [ mkLayerConfig 0 "LEAD" "sine" "#60a5fa" 0;
    mkLayerConfig 1 "BASS" "triangle" "#34d399" (-1);
    mkLayerConfig 2 "DRUM" "drum" "#f472b6" 0;
    mkLayerConfig 3 "CHRD" "square" "#fbbf24" (-0.5) ].

Inductive EffectType := RIPPLE | GRAVITY | SPLASH | STAR.

#[global] Instance EffectType_eq_dec : EqDecision EffectType.
Proof. solve_decision. Defined.

Definition EFFECT_TYPES : list EffectType := [RIPPLE; GRAVITY; SPLASH; STAR].

(** ** Pattern grids

    [grids] is an array of layers, a layer an array of rows, a row an
    array of cells.  A cell read can give [true], [false] or [undefined],
    so a row is a list of [option bool]. *)

Abbreviation Row := (list (option bool)).
Abbreviation Layer := (list (list (option bool))).
Abbreviation Grids := (list (list (list (option bool)))).

(** [a[i]] on an array whose slots may be [undefined]: out of range reads
    [undefined] too. *)
Definition js_index {A} (a : list (option A)) (i : nat) : option A :=
  mjoin (a !! i).

(** [a[i] = v]: replaces slot [i] when it exists; past the end the array
    grows up to [i], the slots in between being holes that read
    [undefined]. *)
Definition js_assign {A} (i : nat) (v : A) (a : list (option A)) : list (option A) :=
  if decide (i < length a) then <[i := Some v]> a
  else a ++ replicate (i - length a) None ++ [Some v].

(** Truthiness of a cell value, and [!v]. *)
Definition truthy (v : option bool) : bool := default false v.
Definition js_not (v : option bool) : bool := negb (truthy v).

(** [Array(ROWS).fill().map(() => Array(COLS).fill(false))] *)
Definition emptyLayer : Layer :=
  replicate CONSTANTS.ROWS (replicate CONSTANTS.COLS (Some false)).

(** Initial value of the [grids] state: one empty layer per entry of
    [LAYERS_CONFIG]. *)
Definition initialGrids : Grids := (fun _ => emptyLayer) <$> LAYERS_CONFIG.

(** The value of cell [(r, c)] of layer [idx]: [grids[idx]?.[r]?.[c]]. *)
Definition cellAt (g : Grids) (idx r c : nat) : option bool :=
  layer ← g !! idx; row ← layer !! r; js_index row c.

(** The part of the component state the pointer handlers read and write. *)
Record Pad := mkPad {
  grids : Grids;
  activeLayerIdx : nat;
  isMouseDown : bool;
  lastTouchedRef : option (nat * nat)
}.

Definition initialPad : Pad := mkPad initialGrids 0 false None.

(** Updater of [handleClear]. *)
Definition handleClear_update (activeLayerIdx : nat) (prev : Grids) : Grids :=
  let newGrids := prev in
  match newGrids !! activeLayerIdx with
  | Some _ => <[activeLayerIdx := emptyLayer]> newGrids
  | None => newGrids
  end.

Definition handleClear (s : Pad) : Pad :=
  mkPad (handleClear_update (activeLayerIdx s) (grids s))
        (activeLayerIdx s) (isMouseDown s) (lastTouchedRef s).

(** Updater of [toggleCell]. *)
Definition toggleCell_update (activeLayerIdx r c : nat) (prev : Grids) : Grids :=
  let newGrids := prev in
  match newGrids !! activeLayerIdx with
  | Some layer =>
      let newLayer := layer in
      match newLayer !! r with
      | Some row =>
          <[activeLayerIdx :=
              <[r := js_assign c (js_not (js_index row c)) row]> newLayer]> newGrids
      | None => newGrids
      end
  | None => newGrids
  end.

Definition toggleCell (r c : nat) (s : Pad) : Pad :=
  match grids s !! activeLayerIdx s with
  | None => s
  | Some _ =>
      mkPad (toggleCell_update (activeLayerIdx s) r c (grids s))
            (activeLayerIdx s) (isMouseDown s) (Some (r, c))
  end.

(** [handleMouseDown] (its call of [init] is on the audio engine). *)
Definition handleMouseDown (s : Pad) : Pad :=
  mkPad (grids s) (activeLayerIdx s) true None.

Definition handleMouseUp (s : Pad) : Pad :=
  mkPad (grids s) (activeLayerIdx s) false None.

(** Updater shared by [handleMouseEnter] and [handleTouchMove]: the cell
    is written only when it currently reads exactly [false].  When nothing
    is written the first handler returns the copy [newGrids] and the
    second returns [prev]; they hold the same layers. *)
Definition paint_update (activeLayerIdx r c : nat) (prev : Grids) : Grids :=
  let newGrids := prev in
  match newGrids !! activeLayerIdx with
  | None => prev
  | Some layer =>
      let currentVal := row ← layer !! r; js_index row c in
      match currentVal with
      | Some false =>
          let newLayer := layer in
          match newLayer !! r with
          | Some row => <[activeLayerIdx := <[r := js_assign c true row]> newLayer]> newGrids
          | None => newGrids
          end
      | _ => newGrids
      end
  end.

Definition sameCell (last : option (nat * nat)) (r c : nat) : bool :=
  match last with
  | Some (r', c') => bool_decide (r' = r) && bool_decide (c' = c)
  | None => false
  end.

Definition handleMouseEnter (r c : nat) (s : Pad) : Pad :=
  if isMouseDown s then
    if sameCell (lastTouchedRef s) r c then s
    else mkPad (paint_update (activeLayerIdx s) r c (grids s))
               (activeLayerIdx s) (isMouseDown s) (Some (r, c))
  else s.

(** [handleTouchMove]: [target] is the cell found under the touch point
    by the hit test, [None] when there is no element carrying a row and a
    column or when they do not parse. *)
Definition handleTouchMove (target : option (nat * nat)) (s : Pad) : Pad :=
  match target with
  | Some (r, c) =>
      if sameCell (lastTouchedRef s) r c then s
      else mkPad (paint_update (activeLayerIdx s) r c (grids s))
                 (activeLayerIdx s) (isMouseDown s) (Some (r, c))
  | None => s
  end.

(** ** Audio engine

    The Web Audio platform is external.  What the engine does to it is
    recorded as the list of voices it has started on the context; whether
    a platform call throws, and whether it does so before or after the
    source of the voice has been started, is an input ([throws]). *)

Inductive Completion (A : Type) :=
| Returns (a : A)
| Throws (e : string).
Arguments Returns {A} a.
Arguments Throws {A} e.

(** [try { body } catch (e) { handler }] *)
Definition try_catch {A} (body : Completion A) (handler : string -> A) : Completion A :=
  match body with
  | Returns a => Returns a
  | Throws e => Returns (handler e)
  end.

Module AudioEngine.
Local Open Scope R_scope.

(** A source node started at time [start], with what it is routed
    through before the master gain.  [Interrupted v] is the source of
    voice [v] started by [source.start (now)] in a trigger whose later
    platform call threw: the rest of its envelope or its stop was not
    scheduled. *)
Inductive Voice :=
| Kick (volume : Number) (start : R)
| Snare (volume : Number) (start : R)
| HiHat (volume : Number) (start : R)
| Tone (waveform : string) (freq start : R) (peak : Number)
       (attackEnd decayEnd stopAt : R)
| Interrupted (intended : Voice).

(** What the platform does with the calls that build, start and schedule
    a voice: all return, or one of the calls up to and including
    [source.start (now)] throws, or one of the calls after it throws. *)
Inductive Fault := NoThrow | ThrowsBeforeStart | ThrowsAfterStart.

Record AudioContext := mkAudioContext {
  currentTime : R;
  sampleRate : R;
  suspended : bool;
  voices : list Voice
}.

Record Compressor := mkCompressor {
  threshold : R; knee : R; ratio : R; attack : R; release : R
}.

Record t := mkEngine {
  ctx : option AudioContext;
  masterGain : option R;
  compressor : option Compressor;
  isInitialized : bool
}.

(** [constructor ()] *)
Definition new : t := mkEngine None None None false.

(** The host the page runs on: [hostWindow] is [false] during server
    rendering, [hostContext] is what [new AudioContext ()] builds
    ([None] when the browser has neither [AudioContext] nor
    [webkitAudioContext]), [hostFault] says which platform call of
    [init] throws, if any ([AtResume]: the promise of [resume ()] is
    rejected and the context stays suspended). *)
Inductive InitFault :=
| NoFault | AtConstruction | AtCompressor | AtMasterGain | AtConnect | AtResume.

Record Host := mkHost {
  hostWindow : bool;
  hostContext : option AudioContext;
  hostFault : InitFault
}.

Definition resumed (cx : AudioContext) : AudioContext :=
  mkAudioContext (currentTime cx) (sampleRate cx) false (voices cx).

(** [init ()]: the engine afterwards and the console lines written. *)
Definition init (h : Host) (e : t) : Completion (t * list string) :=
  if negb (hostWindow h) then Returns (e, [])
  else
    match ctx e with
    | None =>
        match hostContext h with
        | None => Returns (e, ["Web Audio API is not supported in this browser."])
        | Some cx =>
            let err := "AudioEngine initialization error:" in
            let comp := mkCompressor (-24) 30 12 0.003 0.25 in
            match hostFault h with
            | AtConstruction => Returns (e, [err])
            | AtCompressor =>
                Returns (mkEngine (Some cx) (masterGain e) (compressor e) (isInitialized e), [err])
            | AtMasterGain =>
                Returns (mkEngine (Some cx) (masterGain e) (Some comp) (isInitialized e), [err])
            | AtConnect =>
                Returns (mkEngine (Some cx) (Some 0.4) (Some comp) (isInitialized e), [err])
            | AtResume =>
                if suspended cx
                then Returns (mkEngine (Some cx) (Some 0.4) (Some comp) true,
                              ["Audio resume failed:"])
                else Returns (mkEngine (Some cx) (Some 0.4) (Some comp) true, [])
            | NoFault =>
                Returns (mkEngine (Some (resumed cx)) (Some 0.4) (Some comp) true, [])
            end
        end
    | Some cx =>
        if suspended cx then
          match hostFault h with
          | AtResume => Returns (e, ["Audio resume failed:"])
          | _ =>
              Returns (mkEngine (Some (resumed cx)) (masterGain e) (compressor e)
                                (isInitialized e), [])
          end
        else Returns (e, [])
    end.

(** [dispose ()] *)
Definition dispose (e : t) : t :=
  match ctx e with
  | Some _ => mkEngine None (masterGain e) (compressor e) false
  | None => e
  end.

Section Triggers.
(** What the platform does while the nodes of a voice are built, started
    and scheduled. *)
Variable throws : Voice -> Fault.

Definition addVoice (v : Voice) (cx : AudioContext) : AudioContext :=
  mkAudioContext (currentTime cx) (sampleRate cx) (suspended cx) (voices cx ++ [v]).

(** The platform calls of a trigger for voice [v]: the context afterwards
    and whether they threw.  [callsAfterStart] tells whether the trigger
    makes platform calls after [source.start (now)]. *)
Definition startVoice (v : Voice) (callsAfterStart : bool) (cx : AudioContext)
  : AudioContext * Completion unit :=
  match throws v with
  | NoThrow => (addVoice v cx, Returns tt)
  | ThrowsBeforeStart => (cx, Throws "platform")
  | ThrowsAfterStart =>
      if callsAfterStart then (addVoice (Interrupted v) cx, Throws "platform")
      else (addVoice v cx, Returns tt)
  end.

Definition withCtx (e : t) (cx : AudioContext) : t :=
  mkEngine (Some cx) (masterGain e) (compressor e) (isInitialized e).

(** [playDrum (row, rawVolume)].  The kick calls [osc.stop] after
    [osc.start]; for the snare and the hi-hat [noise.start] is the last
    call. *)
Definition playDrum (row : nat) (rawVolume : Number) (e : t)
  : Completion (t * list string) :=
  match ctx e with
  | Some cx =>
      if negb (isInitialized e) then Returns (e, [])
      else
        let volume := Math_maxN (Num 0) (Math_minN (Num 1) rawVolume) in
        let now := currentTime cx in
        let '(voice, callsAfterStart) :=
          if decide (12 <= row)%nat then (Kick volume now, true)
          else if decide (8 <= row)%nat then (Snare volume now, false)
          else (HiHat volume now, false) in
        let '(cx', outcome) := startVoice voice callsAfterStart cx in
        try_catch
          (match outcome with
           | Returns _ => Returns (withCtx e cx', [])
           | Throws err => Throws err
           end)
          (fun _ => (withCtx e cx', ["Audio synthesis error (Drum):"]))
  | None => Returns (e, [])
  end.

Definition safeType (layerType : string) : string :=
  if bool_decide (layerType ∈ ["sine"; "square"; "sawtooth"; "triangle"])
  then layerType else "sine".

(** [playTone (row, layerType, baseOctave, rawVolume)].  The oscillator
    is started before the envelope ramps and [osc.stop] are scheduled. *)
Definition playTone (row : nat) (layerType : string) (baseOctave : R)
    (rawVolume : Number) (e : t) : Completion (t * list string) :=
  match ctx e with
  | Some cx =>
      if negb (isInitialized e) then Returns (e, [])
      else
        let volume := Math_maxN (Num 0) (Math_minN (Num 1) rawVolume) in
        if bool_decide (layerType = "drum") then playDrum row volume e
        else
          let ratio := default 1.0 (PENTATONIC_RATIOS !! row) in
          let freq := CONSTANTS.BASE_FREQ * ratio in
          let freq := if decide (baseOctave = 0) then freq
                      else freq * Rpower 2 baseOctave in
          let freq := if decide (freq > sampleRate cx / 2)
                      then sampleRate cx / 2 else freq in
          let now := currentTime cx in
          let '(peak, attackEnd, decayEnd, duration) :=
            if bool_decide (layerType = "square")
            then (Nscale 0.3 volume, now + 0.01, now + 0.3, 0.4)
            else if bool_decide (layerType = "triangle")
            then (Nscale 0.5 volume, now + 0.05, now + 0.8, 0.9)
            else (Nscale 0.6 volume, now + 0.01, now + 0.5, 0.6) in
          let voice := Tone (safeType layerType) freq now peak attackEnd decayEnd
                            (now + duration + 0.05) in
          let '(cx', outcome) := startVoice voice true cx in
          try_catch
            (match outcome with
             | Returns _ => Returns (withCtx e cx', [])
             | Throws err => Throws err
             end)
            (fun _ => (withCtx e cx', ["Audio synthesis error (Tone):"]))
  | None => Returns (e, [])
  end.
End Triggers.
End AudioEngine.

(** ** Visual effects *)

(** A particle is the object
    [{ r, c, dr, dc, life, scale }]: a finite map from property names to
    numbers.  Reading a property goes through [!!!]; every particle the
    program builds has the six properties. *)
Abbreviation Particle := (gmap string R).

(** Object literals: [define k v o] is the property definition [k: v]
    placed after the definitions of [o], [spread p o] is [...p] placed
    after them.  A later definition of a key replaces the earlier one. *)
Definition define (k : string) (v : R) (o : gmap string R) : gmap string R := <[k := v]> o.
Definition spread (p o : gmap string R) : gmap string R := p ∪ o.

(** An effect object.  [eff_y] and [eff_dy] exist on GRAVITY effects and
    [eff_particles] on SPLASH effects only; the program reads them on
    those archetypes only, elsewhere the record holds [0] and [[]]. *)
Record Effect := mkEffect {
  eff_id : R;
  eff_type : EffectType;
  eff_r : R;
  eff_c : R;
  eff_startTime : R;
  eff_color : string;
  eff_layerIdx : nat;
  eff_y : R;
  eff_dy : R;
  eff_particles : list (gmap string R)
}.

Definition set_y (v : R) (e : Effect) : Effect :=
  mkEffect (eff_id e) (eff_type e) (eff_r e) (eff_c e) (eff_startTime e) (eff_color e)
           (eff_layerIdx e) v (eff_dy e) (eff_particles e).
Definition set_dy (v : R) (e : Effect) : Effect :=
  mkEffect (eff_id e) (eff_type e) (eff_r e) (eff_c e) (eff_startTime e) (eff_color e)
           (eff_layerIdx e) (eff_y e) v (eff_particles e).
Definition set_particles (v : list (gmap string R)) (e : Effect) : Effect :=
  mkEffect (eff_id e) (eff_type e) (eff_r e) (eff_c e) (eff_startTime e) (eff_color e)
           (eff_layerIdx e) (eff_y e) (eff_dy e) v.

Section Effects.
Local Open Scope R_scope.

(** The [i]-th particle pushed by [addVisualEffect]; [speedRnd] and
    [scaleRnd] are its two [Math.random ()] draws. *)
Definition newParticle (particleCount i : nat) (speedRnd scaleRnd : R) : gmap string R :=
  let angle := (PI * 2 * INR i) / INR particleCount in
  let speed := 0.1 + speedRnd * 0.3 in
  define "scale" (1.0 + scaleRnd)
    (define "life" 1.0
       (define "dc" (cos angle * speed)
          (define "dr" (sin angle * speed)
             (define "c" 0 (define "r" 0 ∅))))).

(** Updater of [addVisualEffect (r, c, type, layerColor, layerIdx)].
    [now] is [Date.now ()]; [rand k] is the [k]-th [Math.random ()] draw
    of the call: draw [0] is the id, draws [1 + 2 i] and [2 + 2 i] are
    the speed and the scale of particle [i]. *)
Definition addVisualEffect (now : R) (rand : nat -> R)
    (r c : R) (type : EffectType) (layerColor : string) (layerIdx : nat)
    (prev : list Effect) : list Effect :=
  if decide (CONSTANTS.MAX_EFFECTS <= length prev)%nat then prev
  else
    let id := rand 0%nat in
    let newEffect := mkEffect id type r c now layerColor layerIdx 0 0 [] in
    let newEffect :=
      match type with
      | GRAVITY => set_dy 0 (set_y r newEffect)
      | SPLASH =>
          let particleCount := 12%nat in
          let particles :=
            (fun i => newParticle particleCount i (rand (1 + 2 * i)%nat)
                                  (rand (2 + 2 * i)%nat)) <$> seq 0 particleCount in
          set_particles particles newEffect
      | _ => newEffect
      end in
    prev ++ [newEffect].

(** [height > 0 ? -Math.sqrt (2 * g * height) : 0], [None] being [NaN]. *)
Definition bounceVelocity (g height : R) : option R :=
  if decide (height > 0) then Ropp <$> Math_sqrt (2 * g * height) else Some 0.

(** The object built for one particle by the [map] of the SPLASH
    branch:
    [{ r: p.r + p.dr, c: p.c + p.dc, dr: p.dr + 0.005,
       life: p.life - 0.02, scale: p.scale * 0.95, ...p }]. *)
Definition stepParticle (p : gmap string R) : gmap string R :=
  spread p
    (define "scale" (p !!! "scale" * 0.95)
       (define "life" (p !!! "life" - 0.02)
          (define "dr" (p !!! "dr" + 0.005)
             (define "c" (p !!! "c" + p !!! "dc")
                (define "r" (p !!! "r" + p !!! "dr") ∅))))).

(** The position and velocity update of the GRAVITY branch. *)
Definition fallStep (eff : Effect) : Effect :=
  let g := 0.025 in
  let updatedEff := set_y (eff_y eff + eff_dy eff) eff in
  let updatedEff := set_dy (eff_dy updatedEff + g) updatedEff in
  if decide (eff_y updatedEff > CONSTANTS.FLOOR_Y) then
    let updatedEff := set_y CONSTANTS.FLOOR_Y updatedEff in
    let height := CONSTANTS.FLOOR_Y - eff_r eff in
    (* [bounceVelocity] is never [NaN]: see [bounceVelocity_defined] *)
    set_dy (default 0 (bounceVelocity g height)) updatedEff
  else updatedEff.

(** Body of the loop of [updatePhysics] for one effect: [Some] of the
    updated effect when it is kept, [None] when it is dropped. *)
Definition stepEffect (now : R) (eff : Effect) : option Effect :=
  match eff_type eff with
  | GRAVITY =>
      let updatedEff := fallStep eff in
      let keep := true in
      let keep :=
        if bool_decide (eff_dy updatedEff < 0) && bool_decide (eff_dy updatedEff > -0.05)
           && bool_decide (Math_abs (eff_y updatedEff - CONSTANTS.FLOOR_Y) < 0.1)
        then false else keep in
      let keep := if decide (now - eff_startTime eff > 3000) then false else keep in
      if keep then Some updatedEff else None
  | SPLASH =>
      let particles :=
        filter (fun p => p !!! "life" > 0) (stepParticle <$> eff_particles eff) in
      let updatedEff := set_particles particles eff in
      if decide (length particles = 0%nat) then None else Some updatedEff
  | _ =>
      let lifeTime := 600 in
      if decide (now - eff_startTime eff > lifeTime) then None else Some eff
  end.

(** Updater of [updatePhysics]; [now] is [Date.now ()]. *)
Definition updatePhysics (now : R) (prevEffects : list Effect) : list Effect :=
  if decide (length prevEffects = 0%nat) then prevEffects
  else
    (* [Math.max (0, length - MAX_EFFECTS)]: subtraction on [nat] stops at 0 *)
    let startIndex := Nat.max 0 (length prevEffects - CONSTANTS.MAX_EFFECTS) in
    let processingEffects := drop startIndex prevEffects in
    omap (stepEffect now) processingEffects.

(** [n] animation frames in a row, frame [k] (the first one is [0])
    running at time [times k]. *)
Fixpoint frames (times : nat -> R) (n : nat) (effects : list Effect) : list Effect :=
  match n with
  | O => effects
  | S n' => updatePhysics (times n') (frames times n' effects)
  end.
End Effects.

(** ** Sequencer clock *)

Record Sequencer := mkSequencer {
  isPlaying : bool;
  currentCol : Z;
  bpm : Number;
  (** period in milliseconds of the installed [setInterval] timer *)
  interval : option Number
}.

Section SequencerClock.
Local Open Scope R_scope.

(** Values of [useState] before any effect has run. *)
Definition initialSequencer : Sequencer :=
  mkSequencer false (-1) (Num CONSTANTS.DEFAULT_BPM) None.

Definition safeBpm (bpm : Number) : Number := Math_maxN (Num 1) bpm.

(** [(60 * 1000) / safeBpm / 4]; the divisor is at least 1 or [NaN], and
    [NaN] gives [NaN]. *)
Definition msPerBeat (bpm : Number) : Number :=
  match safeBpm bpm with
  | Num b => Num ((60 * 1000) / b / 4)
  | NaN => NaN
  end.

(** The sequencer [useEffect]: its cleanup clears the previous timer,
    then a timer is installed while playing, and the column is reset
    otherwise. *)
Definition sequencerEffect (s : Sequencer) : Sequencer :=
  if isPlaying s
  then mkSequencer (isPlaying s) (currentCol s) (bpm s) (Some (msPerBeat (bpm s)))
  else mkSequencer (isPlaying s) (-1) (bpm s) None.

(** First render: the effect runs once on the initial state. *)
Definition mounted : Sequencer := sequencerEffect initialSequencer.

(** [handleStart] (its call of [init] is on the audio engine). *)
Definition handleStart (s : Sequencer) : Sequencer :=
  sequencerEffect (mkSequencer (negb (isPlaying s)) (currentCol s) (bpm s) (interval s)).

(** [handleBpmChange]: [val] is [Number (e.target.value)], which is
    [NaN] when the value of the element is not numeric. *)
Definition handleBpmChange (val : Number) (s : Sequencer) : Sequencer :=
  sequencerEffect
    (mkSequencer (isPlaying s) (currentCol s)
                 (Math_maxN (Num CONSTANTS.MIN_BPM) (Math_minN (Num CONSTANTS.MAX_BPM) val))
                 (interval s)).

(** [(prev + 1) % COLS]; [%] is the truncating remainder. *)
Definition nextCol (prev : Z) : Z := Z.rem (prev + 1) (Z.of_nat CONSTANTS.COLS).

(** One firing of the timer; nothing fires when no timer is installed. *)
Definition tick (s : Sequencer) : Sequencer :=
  match interval s with
  | Some _ => mkSequencer (isPlaying s) (nextCol (currentCol s)) (bpm s) (interval s)
  | None => s
  end.

Fixpoint ticks (n : nat) (s : Sequencer) : Sequencer :=
  match n with
  | O => s
  | S n' => tick (ticks n' s)
  end.

(** The calls a tick makes for its new column [col]: for each layer, for
    each row whose cell is truthy,
    [playTone (r, layer.type, layer.baseOctave, volume)] and
    [addVisualEffect (r, col, layerEffects[idx], layer.color, idx)]. *)
Record Trigger := mkTrigger {
  trig_row : nat;
  trig_col : nat;
  trig_idx : nat;
  trig_layer : LayerConfig;
  trig_volume : Number;
  trig_effectType : option EffectType
}.

Definition tickCalls (grids : Grids) (layerVolumes : list Number)
    (layerEffects : list EffectType) (col : nat) : list Trigger :=
  mjoin (imap (fun idx layer =>
    match grids !! idx with
    | None => []
    | Some layerGrid =>
        omap (fun r =>
          match layerGrid !! r with
          | Some row =>
              if truthy (js_index row col)
              then Some (mkTrigger r col idx layer
                           (default (Num 0.8) (layerVolumes !! idx))
                           (layerEffects !! idx))
              else None
          | None => None
          end) (seq 0 CONSTANTS.ROWS)
    end) LAYERS_CONFIG).

(** States the sequencer can be in. *)
Inductive reachable : Sequencer -> Prop :=
| reach_mount : reachable mounted
| reach_start s : reachable s -> reachable (handleStart s)
| reach_bpm s val : reachable s -> reachable (handleBpmChange val s)
| reach_rerun s : reachable s -> reachable (sequencerEffect s)
| reach_tick s : reachable s -> reachable (tick s).

(** The states reached when every tempo handed to [handleBpmChange] was a
    number. *)
Inductive reachableNum : Sequencer -> Prop :=
| reachN_mount : reachableNum mounted
| reachN_start s : reachableNum s -> reachableNum (handleStart s)
| reachN_bpm s x : reachableNum s -> reachableNum (handleBpmChange (Num x) s)
| reachN_rerun s : reachableNum s -> reachableNum (sequencerEffect s)
| reachN_tick s : reachableNum s -> reachableNum (tick s).
End SequencerClock.

(** ** Brightness query *)

Section Brightness.
Local Open Scope R_scope.

Definition rippleStep (now r c : R) (eff : Effect) (brightness : R) : R :=
  let timeDelta := now - eff_startTime eff in
  let radius := timeDelta * 0.012 in
  let dist := Math_max (Math_abs (r - eff_r eff)) (Math_abs (c - eff_c eff)) in
  let distDiff := Math_abs (dist - radius) in
  if decide (distDiff < 1.0)
  then brightness + ((1.0 - distDiff) * (1 - timeDelta / 600))
  else brightness.

Definition gravityStep (r c : R) (eff : Effect) (brightness : R) : R :=
  let distY := Math_abs (r - eff_y eff) in
  let distX := Math_abs (c - eff_c eff) in
  let brightness :=
    if bool_decide (distX = 0) && bool_decide (distY < 0.8)
    then brightness + (1.0 - distY) else brightness in
  if bool_decide (distX = 0) && bool_decide (r < eff_y eff) && bool_decide (r >= eff_r eff)
  then brightness + 0.1 else brightness.

(** Body of the [forEach] over the particles. *)
Definition particleStep (r c : R) (eff : Effect) (brightness : R) (p : gmap string R) : R :=
  let particleR := eff_r eff + p !!! "r" in
  let particleC := eff_c eff + p !!! "c" in
  let dr := r - particleR in
  let dc := c - particleC in
  if bool_decide (Math_abs dr > 1) || bool_decide (Math_abs dc > 1) then brightness
  else
    let dist := sqrt (dr * dr + dc * dc) in
    let size := 0.5 * p !!! "scale" in
    if decide (dist < size)
    then brightness + (1.0 - dist / size) * p !!! "life"
    else brightness.

Definition splashStep (r c : R) (eff : Effect) (brightness : R) : R :=
  fold_left (particleStep r c eff) (eff_particles eff) brightness.

Definition starStep (now r c : R) (eff : Effect) (brightness : R) : R :=
  let timeDelta := now - eff_startTime eff in
  let life := 1 - timeDelta / 600 in
  if decide (life > 0) then
    let distR := Math_abs (r - eff_r eff) in
    let distC := Math_abs (c - eff_c eff) in
    let brightness :=
      if (bool_decide (distR = 0) && bool_decide (distC < 4))
         || (bool_decide (distC = 0) && bool_decide (distR < 4))
      then let dist := Math_max distR distC in brightness + (1 - dist / 4) * life
      else brightness in
    if bool_decide (distR = distC) && bool_decide (distR < 3)
    then brightness + (1 - distR / 3) * life * 0.7
    else brightness
  else brightness.

(** The [for] loop of [getCellBrightness] over the effects in the order
    it visits them (last to first), with its [continue]s and its
    [break]. *)
Fixpoint brightnessLoop (activeLayerIdx : nat) (now r c : R)
    (visit : list Effect) (brightness : R) : R :=
  match visit with
  | [] => brightness
  | eff :: rest =>
      if negb (bool_decide (eff_layerIdx eff = activeLayerIdx))
      then brightnessLoop activeLayerIdx now r c rest brightness
      else if bool_decide (Math_abs (eff_r eff - r) > 8)
              && bool_decide (Math_abs (eff_c eff - c) > 8)
              && negb (bool_decide (eff_type eff = SPLASH))
      then brightnessLoop activeLayerIdx now r c rest brightness
      else
        let brightness :=
          match eff_type eff with
          | RIPPLE => rippleStep now r c eff brightness
          | GRAVITY => gravityStep r c eff brightness
          | SPLASH => splashStep r c eff brightness
          | STAR => starStep now r c eff brightness
          end in
        if decide (brightness >= 1) then brightness
        else brightnessLoop activeLayerIdx now r c rest brightness
  end.

(** [getCellBrightness (r, c)] in a render where the state holds
    [effects] and [activeLayerIdx] and [Date.now ()] gives [now]. *)
Definition getCellBrightness (effects : list Effect) (activeLayerIdx : nat) (now : R)
    (r c : R) : R :=
  Math_min 1 (brightnessLoop activeLayerIdx now r c (rev effects) 0).
End Brightness.

(** ** Layer settings and rendering *)

(** Initial values of the [layerEffects] and [layerVolumes] states. *)
Definition initialLayerEffects : list EffectType := [RIPPLE; GRAVITY; SPLASH; STAR].
Definition initialLayerVolumes : list Number :=
  [Num 0.8; Num 0.8; Num 0.8; Num 0.8]%R.

(** Updater of [changeLayerEffect (newEffect)]. *)
Definition changeLayerEffect (activeLayerIdx : nat) (newEffect : EffectType)
    (prev : list EffectType) : list EffectType :=
  let newEffects := prev in
  if decide (activeLayerIdx < length newEffects)
  then <[activeLayerIdx := newEffect]> newEffects
  else newEffects.

(** Updater of [handleVolumeChange (newVol)]; [newVol] is
    [Number (e.target.value)], [NaN] when the value is not numeric. *)
Definition handleVolumeChange (activeLayerIdx : nat) (newVol : Number)
    (prev : list Number) : list Number :=
  let clampedVol := Math_maxN (Num 0) (Math_minN (Num 1) newVol) in
  let newVols := prev in
  if decide (activeLayerIdx < length newVols)
  then <[activeLayerIdx := clampedVol]> newVols
  else newVols.

(** [setActiveLayerIdx (idx)], called by the layer buttons. *)
Definition setActiveLayerIdx (idx : nat) (s : Pad) : Pad :=
  mkPad (grids s) idx (isMouseDown s) (lastTouchedRef s).

(** [displaced] of the cell renderer: some GRAVITY effect of the active
    layer has its origin at cell [(r, c)]. *)
Definition displaced (effects : list Effect) (activeLayerIdx : nat) (r c : nat) : bool :=
  existsb (fun eff =>
    bool_decide (eff_layerIdx eff = activeLayerIdx)
    && bool_decide (eff_type eff = GRAVITY)
    && bool_decide (eff_r eff = INR r) && bool_decide (eff_c eff = INR c)) effects.

(** [style.opacity] of the cell [(r, c)] in a render: [active] is the
    cell of the pattern grid, [currentCol] the step column. *)
Definition cellOpacity (effects : list Effect) (activeLayerIdx : nat) (now : R)
    (currentCol : Z) (active : bool) (r c : nat) : R :=
  let isScannerHere := bool_decide (currentCol = Z.of_nat c) in
  let brightness := getCellBrightness effects activeLayerIdx now (INR r) (INR c) in
  let displaced := displaced effects activeLayerIdx r c in
  let opacity := 0.3%R in
  let opacity :=
    if displaced && active then 0%R
    else if active then 1%R
    else if isScannerHere then 0.5%R
    else opacity in
  if displaced then Math_max 0 brightness
  else if active then 1%R
  else Math_max opacity brightness.

(** ** States of the page *)

(** A grid as the page keeps it: one layer per entry of [LAYERS_CONFIG],
    16 rows of 16 boolean cells each. *)
Definition wfRow (row : Row) : Prop :=
  length row = CONSTANTS.COLS /\ Forall is_Some row.
Definition wfLayer (layer : Layer) : Prop :=
  length layer = CONSTANTS.ROWS /\ Forall wfRow layer.
Definition wfGrids (g : Grids) : Prop :=
  length g = length LAYERS_CONFIG /\ Forall wfLayer g.

(** States of the pad under the handlers.  The layer buttons pass an
    index of [LAYERS_CONFIG]; [toggleCell] is bound to the rendered cells,
    whose coordinates are below 16. *)
Inductive padReachable : Pad -> Prop :=
| pad_init : padReachable initialPad
| pad_layer idx s :
    idx < length LAYERS_CONFIG -> padReachable s -> padReachable (setActiveLayerIdx idx s)
| pad_clear s : padReachable s -> padReachable (handleClear s)
| pad_toggle r c s :
    r < CONSTANTS.ROWS -> c < CONSTANTS.COLS ->
    padReachable s -> padReachable (toggleCell r c s)
| pad_down s : padReachable s -> padReachable (handleMouseDown s)
| pad_up s : padReachable s -> padReachable (handleMouseUp s)
| pad_enter r c s : padReachable s -> padReachable (handleMouseEnter r c s)
| pad_touch target s : padReachable s -> padReachable (handleTouchMove target s).

(** States of the audio engine: built by the constructor, then changed by
    [init], [dispose] and the two triggers, on any host and platform. *)
Inductive engineReachable : AudioEngine.t -> Prop :=
| engine_new : engineReachable AudioEngine.new
| engine_init h e e' log :
    engineReachable e -> AudioEngine.init h e = Returns (e', log) -> engineReachable e'
| engine_dispose e : engineReachable e -> engineReachable (AudioEngine.dispose e)
| engine_tone throws row layerType baseOctave rawVolume e e' log :
    engineReachable e ->
    AudioEngine.playTone throws row layerType baseOctave rawVolume e = Returns (e', log) ->
    engineReachable e'
| engine_drum throws row rawVolume e e' log :
    engineReachable e ->
    AudioEngine.playDrum throws row rawVolume e = Returns (e', log) ->
    engineReachable e'.

(** A complete voice started on context [cx] at its current time: a
    percussion voice has a gain between 0 and 1; a tone has a frequency of
    at most half the sample rate, a peak gain between 0 and 0.6, one of
    the four oscillator waveforms, and its attack, decay and stop times
    follow the start in that order. *)
Definition gainWithin (hi : R) (n : Number) : Prop :=
  exists x, n = Num x /\ (0 <= x <= hi)%R.

Definition voiceOk (cx : AudioEngine.AudioContext) (v : AudioEngine.Voice) : Prop :=
  match v with
  | AudioEngine.Kick volume start
  | AudioEngine.Snare volume start
  | AudioEngine.HiHat volume start =>
      gainWithin 1 volume /\ start = AudioEngine.currentTime cx
  | AudioEngine.Tone waveform freq start peak attackEnd decayEnd stopAt =>
      (freq <= AudioEngine.sampleRate cx / 2)%R /\
      gainWithin 0.6 peak /\
      start = AudioEngine.currentTime cx /\
      (start < attackEnd < decayEnd)%R /\ (decayEnd < stopAt)%R /\
      waveform ∈ ["sine"; "square"; "sawtooth"; "triangle"]
  | AudioEngine.Interrupted _ => False
  end.

(** The voices of an engine, none when it has no context. *)
Definition engineVoices (e : AudioEngine.t) : list AudioEngine.Voice :=
  match AudioEngine.ctx e with
  | Some cx => AudioEngine.voices cx
  | None => []
  end.

(** The engine after voice [v] has been started on its context [cx]. *)
Definition withVoice (e : AudioEngine.t) (cx : AudioEngine.AudioContext)
    (v : AudioEngine.Voice) : AudioEngine.t :=
  AudioEngine.withCtx e (AudioEngine.addVoice v cx).

(** What a trigger can have done when it returns [e'] and the console
    lines [log] from engine [e]: at most one line is written; the master
    gain, the compressor and the initialization flag are untouched; the
    engine is unchanged or has exactly one more voice, and a voice that
    comes with a console line is an interrupted one. *)
Definition triggerOutcome (e e' : AudioEngine.t) (log : list string) : Prop :=
  length log <= 1 /\
  AudioEngine.masterGain e' = AudioEngine.masterGain e /\
  AudioEngine.compressor e' = AudioEngine.compressor e /\
  AudioEngine.isInitialized e' = AudioEngine.isInitialized e /\
  (e' = e \/
   exists v, engineVoices e' = engineVoices e ++ [v] /\
     (log = [] \/ exists w, v = AudioEngine.Interrupted w)).

(** The three ways the platform calls for voice [v] can end, seen from
    the caller of a trigger on the initialized engine [e] with context
    [cx]; [line] is the console line of the [catch]. *)
Definition voiceCases (e e' : AudioEngine.t) (cx : AudioEngine.AudioContext)
    (v : AudioEngine.Voice) (line : string)
    (log : list string) : Prop :=
  (e' = withVoice e cx v /\ log = []) \/
  (e' = e /\ log = [line]) \/
  (e' = withVoice e cx (AudioEngine.Interrupted v) /\ log = [line]).

(** ** Predicates used by the statements *)

(** The origin, owner and creation data of two effects agree. *)
Definition sameOrigin (eff eff' : Effect) : Prop :=
  eff_id eff' = eff_id eff /\ eff_type eff' = eff_type eff /\
  eff_r eff' = eff_r eff /\ eff_c eff' = eff_c eff /\
  eff_startTime eff' = eff_startTime eff /\ eff_color eff' = eff_color eff /\
  eff_layerIdx eff' = eff_layerIdx eff.

(** What holds of an effect that a pass at time [now] has kept. *)
Definition keptAt (now : R) (eff' : Effect) : Prop :=
  match eff_type eff' with
  | GRAVITY => (now - eff_startTime eff' <= 3000)%R /\ (eff_y eff' <= CONSTANTS.FLOOR_Y)%R
  | SPLASH =>
      eff_particles eff' <> [] /\
      Forall (fun p => (p !!! "life" > 0)%R) (eff_particles eff')
  | _ => (now - eff_startTime eff' <= 600)%R
  end.


(** Every cell that is active in [g] is active in [g']. *)
Definition activeSubset (g g' : Grids) : Prop :=
  forall idx r c, cellAt g idx r c = Some true -> cellAt g' idx r c = Some true.

(** [g'] reads as [g] at every cell other than [(idx, r, c)]. *)
Definition sameElsewhere (g g' : Grids) (idx r c : nat) : Prop :=
  forall idx' r' c', (idx', r', c') <> (idx, r, c) ->
    cellAt g' idx' r' c' = cellAt g idx' r' c'.

(** The outcome of one drag step over cell [(r, c)] of layer [idx]. *)
Definition paintOutcome (g g' : Grids) (idx r c : nat) : Prop :=
  g' = g \/
  (cellAt g idx r c = Some false /\ cellAt g' idx r c = Some true /\
   sameElsewhere g g' idx r c).

(** The six properties of a particle object. *)
Definition particleProps : list string := ["r"; "c"; "dr"; "dc"; "life"; "scale"].

Definition wfParticle (p : gmap string R) : Prop :=
  forall k, k ∈ particleProps -> is_Some (p !! k).

(** Values the [effects] state can take: it starts empty and changes by
    the updaters of [addVisualEffect] and [updatePhysics] only. *)
Inductive liveEffects : list Effect -> Prop :=
| live_init : liveEffects []
| live_add now rand r c type layerColor layerIdx effs :
    liveEffects effs ->
    liveEffects (addVisualEffect now rand r c type layerColor layerIdx effs)
| live_frame now effs :
    liveEffects effs -> liveEffects (updatePhysics now effs).

(** A SPLASH effect with at least one particle, whose particles all have
    the six properties and a positive life. *)
Definition aliveSplash (eff : Effect) : Prop :=
  eff_type eff = SPLASH /\ eff_particles eff <> [] /\
  Forall (fun p => wfParticle p /\ (p !!! "life" > 0)%R) (eff_particles eff).

(** [clamp v lo hi] as the specification writes it: [v] brought into
    the interval from [lo] to [hi]. *)
Definition clamp (v lo hi : R) : R :=
  if decide (v < lo)%R then lo else if decide (hi < v)%R then hi else v.

(** A tempo within its range, or [NaN]. *)
Definition tempoInRange (n : Number) : Prop :=
  exists b, n = Num b /\ (CONSTANTS.MIN_BPM <= b <= CONSTANTS.MAX_BPM)%R.
Definition tempoOrNaN (n : Number) : Prop := n = NaN \/ tempoInRange n.

(** What holds of every state of the sequencer: the tempo is within its
    range or [NaN], the column is [-1] or a step, a timer is installed
    exactly while playing, with the period of the current tempo, and the
    column is [-1] while stopped. *)
Definition sequencerInv (s : Sequencer) : Prop :=
  tempoOrNaN (bpm s) /\
  (-1 <= currentCol s < 16)%Z /\
  (if isPlaying s then interval s = Some (msPerBeat (bpm s))
   else interval s = None /\ currentCol s = (-1)%Z).

(** What the body of the loop of [getCellBrightness] adds for one effect
    at the cell [(r, c)]: nothing for an effect of another layer or one
    passed over by the distance test, and otherwise the term of its
    archetype. *)
Definition contribution (activeLayerIdx : nat) (now r c : R) (eff : Effect) : R :=
  if negb (bool_decide (eff_layerIdx eff = activeLayerIdx)) then 0%R
  else if bool_decide (Math_abs (eff_r eff - r) > 8)%R
          && bool_decide (Math_abs (eff_c eff - c) > 8)%R
          && negb (bool_decide (eff_type eff = SPLASH))
  then 0%R
  else
    match eff_type eff with
    | RIPPLE => rippleStep now r c eff 0
    | GRAVITY => gravityStep r c eff 0
    | SPLASH => splashStep r c eff 0
    | STAR => starStep now r c eff 0
    end.

(** The effect contributes at the cell [(r, c)]. *)
Definition contributes (activeLayerIdx : nat) (now r c : R) (eff : Effect) : Prop :=
  contribution activeLayerIdx now r c eff <> 0%R.

(** An effect whose contribution to the brightness of layer
    [activeLayerIdx] at time [now] cannot be negative: if it is a RIPPLE
    of that layer it is at most 600 ms old, if it is a SPLASH of that
    layer none of its particles has a negative life. *)
Definition withinLife (activeLayerIdx : nat) (now : R) (eff : Effect) : Prop :=
  eff_layerIdx eff = activeLayerIdx ->
  (eff_type eff = RIPPLE -> (now - eff_startTime eff <= 600)%R) /\
  (eff_type eff = SPLASH -> Forall (fun p => (0 <= p !!! "life")%R) (eff_particles eff)).

(** * Properties *)

(** ** Arrays *)

Section ArrayFacts.
Context {A : Type}.
Implicit Types (a : list (option A)) (v : A) (i j : nat).

Lemma js_index_assign_eq a i v : js_index (js_assign i v a) i = Some v.
Proof.
  unfold js_index, js_assign. case_decide as Hi.
  - by rewrite list_lookup_insert_eq.
  - rewrite lookup_app_r by lia.
    rewrite lookup_app_r; rewrite length_replicate; [|lia].
    by replace (i - length a - (i - length a)) with 0 by lia.
Qed.

Lemma js_index_assign_ne a i j v :
  j <> i -> js_index (js_assign i v a) j = js_index a j.
Proof.
  intros Hne. unfold js_index, js_assign. case_decide as Hi.
  - by rewrite list_lookup_insert_ne.
  - destruct (decide (j < length a)) as [Hj|Hj].
    + by rewrite lookup_app_l.
    + rewrite (lookup_ge_None_2 a j) by lia.
      rewrite lookup_app_r by lia.
      destruct (decide (j - length a < i - length a)) as [Hlt|Hge].
      * rewrite lookup_app_l by (rewrite length_replicate; lia).
        by rewrite lookup_replicate_2.
      * rewrite lookup_app_r by (rewrite length_replicate; lia).
        rewrite length_replicate.
        rewrite lookup_ge_None_2; [done|simpl; lia].
Qed.

Lemma js_assign_in_range a i v :
  i < length a -> js_assign i v a = <[i := Some v]> a.
Proof. intros Hi. unfold js_assign. by rewrite decide_True. Qed.

Lemma js_assign_length_in_range a i v :
  i < length a -> length (js_assign i v a) = length a.
Proof. intros Hi. rewrite js_assign_in_range by done. apply length_insert. Qed.
End ArrayFacts.

(** ** Pattern grids *)

Section GridFacts.
Implicit Types (g : Grids) (layer : Layer) (row : Row).

Lemma cellAt_eq g a layer r row c :
  g !! a = Some layer -> layer !! r = Some row -> cellAt g a r c = js_index row c.
Proof. intros Hl Hr. unfold cellAt. rewrite Hl. simpl. by rewrite Hr. Qed.

Lemma cellAt_write g a layer r row' idx' r' c' :
  g !! a = Some layer -> is_Some (layer !! r) ->
  cellAt (<[a := <[r := row']> layer]> g) idx' r' c' =
    if decide (idx' = a /\ r' = r) then js_index row' c' else cellAt g idx' r' c'.
Proof.
  intros Hl Hr. unfold cellAt.
  pose proof (lookup_lt_Some _ _ _ Hl) as Hlt.
  pose proof (lookup_lt_is_Some_1 _ _ Hr) as Hrt.
  destruct (decide (idx' = a)) as [->|Hne].
  - rewrite list_lookup_insert_eq by done. simpl.
    destruct (decide (r' = r)) as [->|Hne'].
    + rewrite list_lookup_insert_eq by done. simpl.
      by rewrite decide_True.
    + rewrite list_lookup_insert_ne by done.
      rewrite decide_False by tauto. by rewrite Hl.
  - rewrite list_lookup_insert_ne by done.
    by rewrite decide_False by tauto.
Qed.

Lemma emptyLayer_cell r c :
  r < CONSTANTS.ROWS -> c < CONSTANTS.COLS ->
  (emptyLayer !! r ≫= fun row => js_index row c) = Some false.
Proof.
  intros Hr Hc. unfold emptyLayer.
  rewrite lookup_replicate_2 by done.
  change (js_index (replicate CONSTANTS.COLS (Some false)) c = Some false).
  unfold js_index. by rewrite lookup_replicate_2.
Qed.

Lemma emptyLayer_shape :
  length emptyLayer = CONSTANTS.ROWS /\
  forall row, row ∈ emptyLayer -> length row = CONSTANTS.COLS.
Proof.
  split; [apply length_replicate|].
  intros row [-> _]%elem_of_replicate. apply length_replicate.
Qed.

Lemma toggleCell_update_eq g a layer r row c :
  g !! a = Some layer -> layer !! r = Some row ->
  toggleCell_update a r c g =
    <[a := <[r := js_assign c (js_not (js_index row c)) row]> layer]> g.
Proof. intros Hl Hr. unfold toggleCell_update. cbv zeta. by rewrite Hl, Hr. Qed.

Lemma paint_update_outcome g a r c : paintOutcome g (paint_update a r c g) a r c.
Proof.
  unfold paint_update. cbv zeta.
  destruct (g !! a) as [layer|] eqn:Hl; [|by left].
  destruct (layer !! r) as [row|] eqn:Hr; simpl; [|by left].
  destruct (js_index row c) as [[|]|] eqn:Hc; try by left.
  right. split; [|split].
  - by rewrite (cellAt_eq g a layer r row).
  - rewrite (cellAt_write g a layer r _ a r c) by eauto.
    rewrite decide_True by done. apply js_index_assign_eq.
  - intros idx' r' c' Hne.
    rewrite (cellAt_write g a layer r) by eauto.
    case_decide as Heq; [|done].
    destruct Heq as [-> ->].
    rewrite js_index_assign_ne by congruence.
    by rewrite (cellAt_eq g a layer r row).
Qed.

Lemma paintOutcome_activeSubset g g' a r c :
  paintOutcome g g' a r c -> activeSubset g g'.
Proof.
  intros [->|(Hoff & Hon & Hsame)] idx r0 c0 Hact; [done|].
  destruct (decide ((idx, r0, c0) = (a, r, c))) as [[= -> -> ->]|Hne].
  - done.
  - by rewrite Hsame.
Qed.
End GridFacts.

(** C8. Clearing sets every one of the 16 x 16 cells of the active
    layer's grid to inactive (the cleared layer has 16 rows of 16 cells,
    all reading [false]) and leaves the grids of all other layers
    unchanged. *)
Theorem handleClear_active_layer_only (s : Pad) :
  activeLayerIdx s < length (grids s) ->
  let s' := handleClear s in
  (forall r c, r < 16 -> c < 16 ->
     cellAt (grids s') (activeLayerIdx s) r c = Some false) /\
  (exists layer, grids s' !! activeLayerIdx s = Some layer /\
     length layer = 16 /\ forall row, row ∈ layer -> length row = 16) /\
  (forall j, j <> activeLayerIdx s -> grids s' !! j = grids s !! j) /\
  length (grids s') = length (grids s) /\
  activeLayerIdx s' = activeLayerIdx s.
Proof.
  intros Hlt. simpl. unfold handleClear_update. cbv zeta.
  destruct (lookup_lt_is_Some_2 _ _ Hlt) as [old Hold]. rewrite Hold.
  split; [|split; [|split; [|split]]].
  - intros r c Hr Hc. unfold cellAt.
    rewrite list_lookup_insert_eq by done. simpl.
    by apply emptyLayer_cell.
  - exists emptyLayer. split; [by rewrite list_lookup_insert_eq|].
    apply emptyLayer_shape.
  - intros j Hj. by rewrite list_lookup_insert_ne.
  - apply length_insert.
  - done.
Qed.

Lemma handleClear_active_layer_only_witness :
  cellAt (grids (handleClear (toggleCell 3 5 initialPad))) 0 3 5 = Some false.
Proof.
  apply (handleClear_active_layer_only (toggleCell 3 5 initialPad)); simpl; lia.
Defined.

(** C9. A drag step over cell [(r, c)], by mouse ([handleMouseEnter]) or
    by touch ([handleTouchMove]), either leaves the grids unchanged or
    turns exactly that cell of the active layer from inactive to active;
    no cell is ever turned off, so the active cells afterwards include
    the active cells before.  When the drag is under way and the cell is
    not the one touched last, an inactive cell is turned on. *)
Theorem drag_paint_monotone (s : Pad) (r c : nat) :
  let a := activeLayerIdx s in
  (paintOutcome (grids s) (grids (handleMouseEnter r c s)) a r c /\
   activeSubset (grids s) (grids (handleMouseEnter r c s))) /\
  (paintOutcome (grids s) (grids (handleTouchMove (Some (r, c)) s)) a r c /\
   activeSubset (grids s) (grids (handleTouchMove (Some (r, c)) s))) /\
  grids (handleTouchMove None s) = grids s /\
  (isMouseDown s = true -> lastTouchedRef s <> Some (r, c) ->
   cellAt (grids s) a r c = Some false ->
   cellAt (grids (handleMouseEnter r c s)) a r c = Some true /\
   cellAt (grids (handleTouchMove (Some (r, c)) s)) a r c = Some true).
Proof.
  intros a.
  assert (Hm : paintOutcome (grids s) (grids (handleMouseEnter r c s)) a r c).
  { unfold handleMouseEnter.
    destruct (isMouseDown s); [|by left].
    destruct (sameCell (lastTouchedRef s) r c); [by left|].
    apply paint_update_outcome. }
  assert (Ht : paintOutcome (grids s) (grids (handleTouchMove (Some (r, c)) s)) a r c).
  { unfold handleTouchMove.
    destruct (sameCell (lastTouchedRef s) r c); [by left|].
    apply paint_update_outcome. }
  split; [|split; [|split]].
  - split; [done|]. by eapply paintOutcome_activeSubset.
  - split; [done|]. by eapply paintOutcome_activeSubset.
  - done.
  - intros Hdown Hlast Hoff.
    assert (Hsame : sameCell (lastTouchedRef s) r c = false).
    { unfold sameCell. destruct (lastTouchedRef s) as [[r' c']|]; [|done].
      apply andb_false_iff.
      destruct (decide (r' = r)) as [->|Hr]; [|left; by apply bool_decide_eq_false].
      right. apply bool_decide_eq_false. congruence. }
    assert (Hp : cellAt (paint_update a r c (grids s)) a r c = Some true).
    { destruct (paint_update_outcome (grids s) a r c) as [Heq|(_ & Hon & _)]; [|done].
      exfalso. revert Heq Hoff. unfold paint_update, cellAt. cbv zeta.
      destruct (grids s !! a) as [layer|] eqn:Hl; [|done]. simpl.
      destruct (layer !! r) as [row|] eqn:Hr; [|done]. simpl.
      intros Heq Hoff. rewrite Hoff in Heq.
      assert (Hc : cellAt (grids s) a r c = Some true).
      { rewrite <- Heq at 1.
        rewrite (cellAt_write (grids s) a layer r _ a r c) by eauto.
        rewrite decide_True by done. apply js_index_assign_eq. }
      rewrite (cellAt_eq (grids s) a layer r row) in Hc by done. congruence. }
    unfold handleMouseEnter, handleTouchMove. by rewrite Hdown, Hsame.
Qed.

Lemma drag_paint_monotone_witness :
  cellAt (grids (handleMouseEnter 2 7 (handleMouseDown initialPad))) 0 2 7 = Some true /\
  cellAt (grids (handleTouchMove (Some (2, 7)) (handleMouseDown initialPad))) 0 2 7
    = Some true.
Proof.
  apply (drag_paint_monotone (handleMouseDown initialPad) 2 7);
    [reflexivity | discriminate | reflexivity].
Defined.

(** C10. On an in-range cell [(r, c)] of the active layer, [toggleCell]
    applied twice gives back the original grids, and applied once it
    negates that cell and changes nothing else: every other cell reads as
    before and every other layer's grid is unchanged. *)
Theorem toggleCell_involution (s : Pad) (r c : nat) (layer : Layer) (row : Row) (b : bool) :
  grids s !! activeLayerIdx s = Some layer ->
  layer !! r = Some row ->
  row !! c = Some (Some b) ->
  grids (toggleCell r c (toggleCell r c s)) = grids s /\
  cellAt (grids (toggleCell r c s)) (activeLayerIdx s) r c = Some (negb b) /\
  sameElsewhere (grids s) (grids (toggleCell r c s)) (activeLayerIdx s) r c /\
  (forall j, j <> activeLayerIdx s -> grids (toggleCell r c s) !! j = grids s !! j).
Proof.
  intros Hl Hr Hc.
  pose proof (lookup_lt_Some _ _ _ Hl) as Hlt.
  pose proof (lookup_lt_Some _ _ _ Hr) as Hrt.
  pose proof (lookup_lt_Some _ _ _ Hc) as Hct.
  assert (Hidx : js_index row c = Some b) by (unfold js_index; by rewrite Hc).
  set (row1 := js_assign c (negb b) row).
  set (layer1 := <[r := row1]> layer).
  assert (H1 : grids (toggleCell r c s) = <[activeLayerIdx s := layer1]> (grids s)).
  { unfold toggleCell. rewrite Hl. simpl.
    rewrite (toggleCell_update_eq _ _ layer r row) by done.
    rewrite Hidx. done. }
  assert (Hact : activeLayerIdx (toggleCell r c s) = activeLayerIdx s).
  { unfold toggleCell. by rewrite Hl. }
  split; [|split; [|split]].
  - assert (Hl1 : grids (toggleCell r c s) !! activeLayerIdx (toggleCell r c s) = Some layer1).
    { rewrite Hact, H1. by rewrite list_lookup_insert_eq. }
    assert (Hr1 : layer1 !! r = Some row1).
    { unfold layer1. by rewrite list_lookup_insert_eq. }
    unfold toggleCell at 1. rewrite Hl1. simpl.
    rewrite (toggleCell_update_eq _ _ layer1 r row1) by done.
    rewrite Hact, H1.
    rewrite list_insert_insert_eq. unfold layer1. rewrite list_insert_insert_eq.
    unfold row1. rewrite js_index_assign_eq.
    rewrite (js_assign_in_range row) by done.
    rewrite js_assign_in_range by (by rewrite length_insert).
    rewrite list_insert_insert_eq.
    unfold js_not, truthy. simpl. rewrite negb_involutive.
    rewrite (list_insert_id row c (Some b)) by done.
    rewrite (list_insert_id layer r row) by done.
    by rewrite list_insert_id.
  - rewrite H1. unfold layer1.
    rewrite (cellAt_write (grids s) _ layer r) by eauto.
    rewrite decide_True by done. apply js_index_assign_eq.
  - intros idx' r' c' Hne. rewrite H1. unfold layer1.
    rewrite (cellAt_write (grids s) _ layer r) by eauto.
    case_decide as Heq; [|done]. destruct Heq as [-> ->].
    unfold row1. rewrite js_index_assign_ne by congruence.
    by rewrite (cellAt_eq (grids s) _ layer r row).
  - intros j Hj. rewrite H1. by rewrite list_lookup_insert_ne.
Qed.

Lemma toggleCell_involution_witness :
  grids (toggleCell 4 9 (toggleCell 4 9 initialPad)) = grids initialPad.
Proof.
  apply (toggleCell_involution initialPad 4 9 emptyLayer
           (replicate CONSTANTS.COLS (Some false)) false); reflexivity.
Defined.

(** ** Effect collection *)

Section EffectFacts.
Local Open Scope R_scope.

Lemma addVisualEffect_full now rand r c type layerColor layerIdx prev :
  (CONSTANTS.MAX_EFFECTS <= length prev)%nat ->
  addVisualEffect now rand r c type layerColor layerIdx prev = prev.
Proof. intros Hfull. unfold addVisualEffect. by rewrite decide_True. Qed.

Lemma addVisualEffect_length now rand r c type layerColor layerIdx prev :
  length (addVisualEffect now rand r c type layerColor layerIdx prev) =
    if decide (CONSTANTS.MAX_EFFECTS <= length prev)%nat
    then length prev else S (length prev).
Proof.
  unfold addVisualEffect. case_decide; [done|].
  rewrite length_app. simpl. lia.
Qed.

Lemma length_omap_le {A B} (f : A -> option B) (l : list A) :
  (length (omap f l) <= length l)%nat.
Proof. induction l as [|x l IH]; csimpl; [lia|]. destruct (f x); csimpl; lia. Qed.

Lemma updatePhysics_length now prev :
  (length (updatePhysics now prev) <= Nat.min (length prev) CONSTANTS.MAX_EFFECTS)%nat.
Proof.
  unfold updatePhysics. case_decide as Hz; [lia|]. cbv zeta.
  etransitivity; [apply length_omap_le|].
  rewrite length_drop. unfold CONSTANTS.MAX_EFFECTS. lia.
Qed.

Lemma liveEffects_bounded effs :
  liveEffects effs -> (length effs <= CONSTANTS.MAX_EFFECTS)%nat.
Proof.
  induction 1 as [|now rand r c type color idx effs _ IH|now effs _ IH].
  - simpl. lia.
  - rewrite addVisualEffect_length. case_decide; lia.
  - pose proof (updatePhysics_length now effs). lia.
Qed.
End EffectFacts.

(** C3. The live effect collection never exceeds 150 elements: an
    insertion into a collection of 150 or more effects returns the
    collection unchanged, an insertion into a smaller one grows it by
    exactly one, a simulation pass never returns more than 150 effects,
    and so every value the collection takes has at most 150 elements. *)
Theorem effects_capacity :
  (forall now rand r c type layerColor layerIdx prev,
     (150 <= length prev)%nat ->
     addVisualEffect now rand r c type layerColor layerIdx prev = prev) /\
  (forall now rand r c type layerColor layerIdx prev,
     (length prev <= 150)%nat ->
     (length (addVisualEffect now rand r c type layerColor layerIdx prev) <= 150)%nat) /\
  (forall now prev,
     (length (updatePhysics now prev) <= 150)%nat /\
     (length (updatePhysics now prev) <= length prev)%nat) /\
  (forall effs, liveEffects effs -> (length effs <= 150)%nat).
Proof.
  split; [|split; [|split]].
  - intros. by apply addVisualEffect_full.
  - intros now rand r c type color idx prev Hle.
    rewrite addVisualEffect_length. case_decide as Hfull; [done|].
    unfold CONSTANTS.MAX_EFFECTS in Hfull. lia.
  - intros now prev. pose proof (updatePhysics_length now prev) as H.
    unfold CONSTANTS.MAX_EFFECTS in H. lia.
  - intros effs H. apply liveEffects_bounded in H.
    unfold CONSTANTS.MAX_EFFECTS in H. lia.
Qed.

Lemma effects_capacity_witness :
  let e := mkEffect 0 STAR 1 2 0 "#60a5fa" 0 0 0 [] in
  addVisualEffect 10 (fun _ => 0%R) 3 4 RIPPLE "#34d399" 1 (replicate 150 e)
    = replicate 150 e.
Proof.
  intros e.
  apply (proj1 effects_capacity 10%R (fun _ => 0%R) 3%R 4%R RIPPLE "#34d399" 1%nat
               (replicate 150 e)).
  rewrite length_replicate. lia.
Defined.

(** ** SPLASH particles *)

Section SplashFacts.
Local Open Scope R_scope.

(** The spread comes last in the literal, so each property computed
    before it is replaced by the particle's own value. *)
Lemma stepParticle_frozen p : wfParticle p -> stepParticle p = p.
Proof.
  intros Hwf. unfold stepParticle, spread, define.
  apply map_eq. intros k.
  destruct (p !! k) as [x|] eqn:Hk.
  - by apply lookup_union_Some_l.
  - rewrite lookup_union_r by done.
    assert (Hne : forall k', k' ∈ particleProps -> k' <> k).
    { intros k' Hin ->. destruct (Hwf _ Hin) as [x Hx]. congruence. }
    rewrite !lookup_insert_ne by (apply Hne; unfold particleProps; set_solver).
    by rewrite lookup_empty.
Qed.

Lemma newParticle_wf n i s1 s2 : wfParticle (newParticle n i s1 s2).
Proof.
  intros k Hk. unfold particleProps in Hk. unfold newParticle, define.
  repeat (apply elem_of_cons in Hk as [->|Hk]);
    [rewrite ?lookup_insert_ne by done; rewrite lookup_insert_eq; eauto ..
    |by apply elem_of_nil in Hk].
Qed.

Lemma newParticle_life n i s1 s2 : newParticle n i s1 s2 !!! "life" = 1.
Proof.
  unfold newParticle, define.
  rewrite lookup_total_insert_ne by done. rewrite lookup_total_insert_eq. lra.
Qed.

Lemma stepEffect_alive now eff : aliveSplash eff -> stepEffect now eff = Some eff.
Proof.
  intros (Htype & Hne & Hall). unfold stepEffect. rewrite Htype. cbv zeta.
  assert (Hsame : filter (fun p => p !!! "life" > 0) (stepParticle <$> eff_particles eff)
                  = eff_particles eff).
  { clear Hne. induction Hall as [|p ps [Hwf Hlife] _ IH]; [done|].
    csimpl. rewrite stepParticle_frozen by done.
    rewrite filter_cons_True by done. by rewrite IH. }
  rewrite Hsame. rewrite decide_False.
  - by destruct eff.
  - by destruct (eff_particles eff).
Qed.

Lemma alive_survives_frame now effs eff :
  aliveSplash eff -> eff ∈ effs -> (length effs <= CONSTANTS.MAX_EFFECTS)%nat ->
  eff ∈ updatePhysics now effs.
Proof.
  intros Halive Hin Hlen. unfold updatePhysics.
  case_decide as Hz; [done|]. cbv zeta.
  replace (Nat.max 0 (length effs - CONSTANTS.MAX_EFFECTS)) with 0%nat by lia.
  rewrite drop_0. apply list_elem_of_omap. exists eff.
  split; [done|]. by apply stepEffect_alive.
Qed.

Lemma frames_length times n effs :
  (length effs <= CONSTANTS.MAX_EFFECTS)%nat ->
  (length (frames times n effs) <= CONSTANTS.MAX_EFFECTS)%nat.
Proof.
  intros Hlen. destruct n as [|n]; [done|]. simpl.
  pose proof (updatePhysics_length (times n) (frames times n effs)). lia.
Qed.

Lemma alive_survives_frames times n effs eff :
  aliveSplash eff -> eff ∈ effs -> (length effs <= CONSTANTS.MAX_EFFECTS)%nat ->
  eff ∈ frames times n effs.
Proof.
  intros Halive Hin Hlen. induction n as [|n IH]; [done|]. simpl.
  apply alive_survives_frame; [done..|]. by apply frames_length.
Qed.
End SplashFacts.

(** C1 (what the program does).  A SPLASH effect is created with
    exactly 12 particles, each of life 1.  A simulation step returns the
    effect as it was: positions, velocities, life and scale of its
    particles keep their values, no particle is removed, and after any
    number of frames the effect is still in the live collection. *)
Theorem splash_effect_never_expires
    (now : R) (rand : nat -> R) (r c : R) (layerColor : string) (layerIdx : nat)
    (prev : list Effect) (times : nat -> R) (n : nat) :
  length prev < 150 ->
  exists eff,
    addVisualEffect now rand r c SPLASH layerColor layerIdx prev = prev ++ [eff] /\
    length (eff_particles eff) = 12 /\
    Forall (fun p => p !!! "life" = 1%R) (eff_particles eff) /\
    (forall p, p ∈ eff_particles eff -> stepParticle p = p) /\
    (forall t, stepEffect t eff = Some eff) /\
    eff ∈ frames times n (prev ++ [eff]).
Proof.
  intros Hlen. unfold addVisualEffect.
  rewrite decide_False by (unfold CONSTANTS.MAX_EFFECTS; lia). cbv zeta.
  eexists. split; [reflexivity|].
  set (ps := (fun i => newParticle 12 i (rand (1 + 2 * i)) (rand (2 + 2 * i))) <$> seq 0 12).
  assert (Hall : Forall (fun p => wfParticle p /\ (p !!! "life" > 0)%R) ps).
  { apply Forall_fmap, Forall_forall. intros i _. simpl.
    split; [apply newParticle_wf|]. rewrite newParticle_life. lra. }
  assert (Halive : forall eff, eff_type eff = SPLASH -> eff_particles eff = ps ->
                               aliveSplash eff).
  { intros eff Ht Hp. unfold aliveSplash. rewrite Ht, Hp. done. }
  split; [done|]. split; [|split; [|split]].
  - apply Forall_fmap, Forall_forall. intros i _. simpl. apply newParticle_life.
  - intros p Hp. apply stepParticle_frozen.
    simpl in Hp. by apply (proj1 (Forall_forall _ _) Hall).
  - intros t. by apply stepEffect_alive, Halive.
  - apply alive_survives_frames.
    + by apply Halive.
    + apply elem_of_app. right. by apply list_elem_of_singleton.
    + rewrite length_app. simpl. unfold CONSTANTS.MAX_EFFECTS. lia.
Qed.

Lemma splash_effect_never_expires_witness :
  exists eff,
    addVisualEffect 0 (fun _ => 0.5%R) 3 5 SPLASH "#f472b6" 2 [] = [] ++ [eff] /\
    length (eff_particles eff) = 12 /\
    Forall (fun p => p !!! "life" = 1%R) (eff_particles eff) /\
    (forall p, p ∈ eff_particles eff -> stepParticle p = p) /\
    (forall t, stepEffect t eff = Some eff) /\
    eff ∈ frames (fun k => INR (16 * k)) 1000 ([] ++ [eff]).
Proof.
  apply (splash_effect_never_expires 0%R (fun _ => 0.5%R) 3%R 5%R "#f472b6" 2 []
           (fun k => INR (16 * k)) 1000).
  simpl. lia.
Defined.

(** ** GRAVITY rebound *)

Section GravityFacts.
Local Open Scope R_scope.

Lemma bounceVelocity_flat g height : height <= 0 -> bounceVelocity g height = Some 0.
Proof. intros Hh. unfold bounceVelocity. rewrite decide_False by lra. done. Qed.

Lemma bounceVelocity_up g height :
  0 <= g -> height > 0 -> bounceVelocity g height = Some (- sqrt (2 * g * height)).
Proof.
  intros Hg Hh. unfold bounceVelocity, Math_sqrt.
  rewrite decide_True by done. rewrite decide_True by nra. done.
Qed.

Lemma bounceVelocity_defined g height :
  0 <= g -> is_Some (bounceVelocity g height).
Proof.
  intros Hg. destruct (Rle_or_lt height 0).
  - rewrite bounceVelocity_flat by done. eauto.
  - rewrite bounceVelocity_up by lra. eauto.
Qed.

Lemma fallStep_contact eff :
  eff_y eff + eff_dy eff > CONSTANTS.FLOOR_Y ->
  eff_y (fallStep eff) = CONSTANTS.FLOOR_Y /\
  Some (eff_dy (fallStep eff)) = bounceVelocity 0.025 (CONSTANTS.FLOOR_Y - eff_r eff).
Proof.
  intros Hc. unfold fallStep. cbv zeta. simpl.
  rewrite decide_True by done. simpl. split; [done|].
  destruct (bounceVelocity_defined 0.025 (CONSTANTS.FLOOR_Y - eff_r eff)) as [v Hv];
    [lra|].
  by rewrite Hv.
Qed.
End GravityFacts.

(** C6. The rebound velocity of a GRAVITY effect is never [NaN].  When the
    step brings the effect below the floor, its position is set to the
    floor row 15.5 and its velocity to the rebound velocity, which is
    exactly 0 when floor - originRow is not positive (in particular when
    the origin row is the floor row), and
    [- sqrt (2 * 0.025 * (floor - originRow))] when it is positive. *)
Theorem gravity_rebound_velocity (eff : Effect) :
  let height := (15.5 - eff_r eff)%R in
  is_Some (bounceVelocity 0.025 height) /\
  ((eff_y eff + eff_dy eff > 15.5)%R ->
   eff_y (fallStep eff) = 15.5%R /\
   (eff_r eff = 15.5%R -> eff_dy (fallStep eff) = 0%R) /\
   ((height <= 0)%R ->
    bounceVelocity 0.025 height = Some 0%R /\ eff_dy (fallStep eff) = 0%R) /\
   ((height > 0)%R ->
    bounceVelocity 0.025 height = Some (- sqrt (2 * 0.025 * height))%R /\
    eff_dy (fallStep eff) = (- sqrt (2 * 0.025 * height))%R)).
Proof.
  intros height. split; [apply bounceVelocity_defined; lra|].
  intros Hc. destruct (fallStep_contact eff Hc) as [Hy Hdy].
  change (CONSTANTS.FLOOR_Y - eff_r eff)%R with height in Hdy.
  split; [done|]. split; [|split].
  - intros Hr. rewrite bounceVelocity_flat in Hdy by (unfold height; lra). congruence.
  - intros Hh. rewrite bounceVelocity_flat in * by done. split; congruence.
  - intros Hh. rewrite bounceVelocity_up in * by lra. split; congruence.
Qed.

Lemma gravity_rebound_velocity_witness :
  let eff := mkEffect 0 GRAVITY 15.5 3 0 "#34d399" 1 15.5 0.025 [] in
  eff_y (fallStep eff) = 15.5%R /\ eff_dy (fallStep eff) = 0%R.
Proof.
  intros eff.
  destruct (gravity_rebound_velocity eff) as [_ H].
  destruct H as (Hy & Hdy & _); [simpl; lra|].
  split; [exact Hy|apply Hdy; reflexivity].
Defined.

(** ** Sequencer clock *)

Section SequencerFacts.
Local Open Scope R_scope.

Lemma clamp_max_min v lo hi :
  lo <= hi -> Math_max lo (Math_min hi v) = clamp v lo hi.
Proof.
  intros Hle. unfold Math_max, Math_min, clamp, Rmax, Rmin.
  repeat case_decide; repeat destruct (Rle_dec _ _); lra.
Qed.

Lemma clamp_bounds v lo hi : lo <= hi -> lo <= clamp v lo hi <= hi.
Proof. intros Hle. unfold clamp. repeat case_decide; lra. Qed.


Lemma clampN_num v lo hi :
  lo <= hi -> Math_maxN (Num lo) (Math_minN (Num hi) (Num v)) = Num (clamp v lo hi).
Proof. intros Hle. simpl. by rewrite clamp_max_min. Qed.

Lemma stored_tempo_cases val :
  tempoOrNaN (Math_maxN (Num CONSTANTS.MIN_BPM) (Math_minN (Num CONSTANTS.MAX_BPM) val)).
Proof.
  destruct val as [v|]; [|by left]. right.
  unfold CONSTANTS.MIN_BPM, CONSTANTS.MAX_BPM.
  rewrite clampN_num by lra. eexists. split; [done|].
  apply (clamp_bounds v 60 240). lra.
Qed.


Lemma safeBpm_in_range b : CONSTANTS.MIN_BPM <= b -> safeBpm (Num b) = Num b.
Proof.
  unfold CONSTANTS.MIN_BPM, safeBpm. simpl. unfold Math_max. intros Hb.
  f_equal. apply Rmax_right. lra.
Qed.

Lemma msPerBeat_in_range b :
  CONSTANTS.MIN_BPM <= b -> msPerBeat (Num b) = Num (60000 / b / 4).
Proof.
  intros Hb. unfold msPerBeat. rewrite safeBpm_in_range by done.
  f_equal. f_equal. f_equal. lra.
Qed.

Lemma nextCol_range col : (-1 <= col < 16)%Z -> (0 <= nextCol col < 16)%Z.
Proof.
  intros Hc. unfold nextCol, CONSTANTS.COLS.
  rewrite Z.rem_mod_nonneg by lia.
  apply Z.mod_pos_bound. lia.
Qed.

Lemma sequencerEffect_inv s :
  tempoOrNaN (bpm s) -> (-1 <= currentCol s < 16)%Z ->
  sequencerInv (sequencerEffect s).
Proof.
  intros Hb Hc. unfold sequencerInv, sequencerEffect.
  destruct (isPlaying s); simpl; repeat split; try done; lia.
Qed.

Lemma tick_inv s : sequencerInv s -> sequencerInv (tick s).
Proof.
  intros IH. unfold tick.
  destruct (interval s) as [p|] eqn:Hi; [|exact IH].
  destruct IH as (Hb & Hc & Hp).
  unfold sequencerInv. simpl. split; [done|].
  split; [pose proof (nextCol_range _ Hc); lia|].
  destruct (isPlaying s); [congruence|]. destruct Hp. congruence.
Qed.

Lemma reachable_inv s : reachable s -> sequencerInv s.
Proof.
  induction 1 as [|s _ IH|s val _ IH|s _ IH|s _ IH].
  - apply sequencerEffect_inv; simpl; [|lia]. right. eexists. split; [done|].
    unfold CONSTANTS.MIN_BPM, CONSTANTS.MAX_BPM, CONSTANTS.DEFAULT_BPM. lra.
  - destruct IH as (Hb & Hc & _). by apply sequencerEffect_inv.
  - destruct IH as (_ & Hc & _). apply sequencerEffect_inv; simpl; [|done].
    apply stored_tempo_cases.
  - destruct IH as (Hb & Hc & _). by apply sequencerEffect_inv.
  - by apply tick_inv.
Qed.


Lemma reachableNum_tempo s : reachableNum s -> tempoInRange (bpm s).
Proof.
  induction 1 as [|s _ IH|s x _ IH|s _ IH|s _ IH].
  - eexists. split; [done|].
    unfold CONSTANTS.MIN_BPM, CONSTANTS.MAX_BPM, CONSTANTS.DEFAULT_BPM. lra.
  - unfold handleStart, sequencerEffect. simpl. by destruct (negb (isPlaying s)).
  - unfold handleBpmChange, sequencerEffect.
    destruct (stored_tempo_cases (Num x)) as [Hn|Hr]; [done|].
    by destruct (isPlaying s).
  - unfold sequencerEffect. by destruct (isPlaying s).
  - unfold tick. by destruct (interval s).
Qed.

Lemma ticks_col n s p :
  interval s = Some p -> (0 <= currentCol s < 16)%Z ->
  interval (ticks n s) = Some p /\
  currentCol (ticks n s) = ((currentCol s + Z.of_nat n) mod 16)%Z.
Proof.
  intros Hi Hc. induction n as [|n [IHi IHc]].
  - simpl. split; [done|]. rewrite Z.add_0_r. by rewrite Z.mod_small.
  - simpl. unfold tick. rewrite IHi. simpl. split; [done|].
    unfold nextCol, CONSTANTS.COLS. rewrite IHc.
    rewrite Z.rem_mod_nonneg;
      [|pose proof (Z.mod_pos_bound (currentCol s + Z.of_nat n) 16); lia|lia].
    change (Z.of_nat 16) with 16%Z.
    rewrite Zplus_mod_idemp_l. f_equal. lia.
Qed.
End SequencerFacts.

(** C4. A tick of the installed timer sets the step column to
    (previous + 1) mod 16; 16 ticks from any step column, column 0 in
    particular, lead back to it; and in every state where the sequencer is
    stopped the column reads -1. *)
Theorem step_column_cycles (s : Sequencer) :
  reachable s ->
  (interval s <> None ->
   currentCol (tick s) = ((currentCol s + 1) mod 16)%Z /\
   currentCol (tick s) = Z.rem (currentCol s + 1) 16) /\
  (interval s <> None -> (0 <= currentCol s)%Z ->
   currentCol (ticks 16 s) = currentCol s) /\
  (interval s <> None -> currentCol s = 0%Z -> currentCol (ticks 16 s) = 0%Z) /\
  (isPlaying s = false -> currentCol s = (-1)%Z /\ tick s = s) /\
  (isPlaying s = true <-> interval s <> None) /\
  (-1 <= currentCol s < 16)%Z.
Proof.
  intros Hreach. destruct (reachable_inv s Hreach) as (Hb & Hc & Hp).
  assert (Hcycle : interval s <> None -> (0 <= currentCol s)%Z ->
                   currentCol (ticks 16 s) = currentCol s).
  { intros Hi H0. destruct (interval s) as [p|] eqn:Hip; [|done].
    destruct (ticks_col 16 s p Hip) as [_ ->]; [lia|].
    change (Z.of_nat 16) with (1 * 16)%Z.
    rewrite Z.mod_add by lia. apply Z.mod_small. lia. }
  split; [|split; [|split; [|split; [|split]]]].
  - intros Hi. unfold tick. destruct (interval s) as [p|]; [|done]. simpl.
    unfold nextCol, CONSTANTS.COLS. split; [|done].
    apply Z.rem_mod_nonneg; lia.
  - done.
  - intros Hi H0. rewrite Hcycle; [done|done|lia].
  - intros Hstop. rewrite Hstop in Hp. destruct Hp as [Hi ->].
    split; [done|]. unfold tick. by rewrite Hi.
  - destruct (isPlaying s); [rewrite Hp|destruct Hp as [-> _]]; split; done.
  - done.
Qed.

Lemma step_column_cycles_witness :
  currentCol mounted = (-1)%Z /\
  currentCol (ticks 16 (tick (handleStart mounted))) = 0%Z.
Proof.
  split.
  - apply (step_column_cycles mounted); [apply reach_mount|reflexivity].
  - apply (step_column_cycles (tick (handleStart mounted)));
      [apply reach_tick, reach_start, reach_mount|discriminate|reflexivity].
Defined.




(** ** Audio engine *)

Section AudioFacts.
Import AudioEngine.

(** The engine has no context or has not completed [init]. *)
Lemma init_failure_uninitialized h e e' log :
  ctx e = None -> isInitialized e = false ->
  hostWindow h = false \/ hostContext h = None \/
    hostFault h ∈ [AtConstruction; AtCompressor; AtMasterGain; AtConnect] ->
  init h e = Returns (e', log) ->
  ctx e' = None \/ isInitialized e' = false.
Proof.
  intros Hctx Hinit Hfail. unfold init. rewrite Hctx.
  destruct (hostWindow h); simpl; [|intros [= <- _]; by left].
  destruct (hostContext h) as [cx|]; [|intros [= <- _]; by left].
  destruct Hfail as [Hw|[Hc|Hf]]; [done..|].
  destruct (hostFault h); try (intros [= <- _]; simpl; by auto);
    repeat (apply elem_of_cons in Hf as [Hf|Hf]; [discriminate|]);
    by apply elem_of_nil in Hf.
Qed.

Lemma dispose_uninitialized e :
  ctx (dispose e) = None /\ (ctx e = None \/ isInitialized (dispose e) = false).
Proof. unfold dispose. destruct (ctx e) eqn:He; simpl; auto. Qed.
End AudioFacts.

(** C7. When the engine has no audio context or its initialization flag
    is unset, [playTone] and [playDrum] return normally, leave the engine
    as it was and write nothing to the console, whatever the row, the
    waveform kind, the octave offset and the volume, and whatever the
    platform would do. *)
Theorem triggers_noop_when_uninitialized
    (throws : AudioEngine.Voice -> AudioEngine.Fault) (row : nat) (layerType : string)
    (baseOctave : R) (rawVolume : Number) (e : AudioEngine.t) :
  AudioEngine.ctx e = None \/ AudioEngine.isInitialized e = false ->
  AudioEngine.playTone throws row layerType baseOctave rawVolume e = Returns (e, []) /\
  AudioEngine.playDrum throws row rawVolume e = Returns (e, []).
Proof.
  intros Hun. unfold AudioEngine.playTone, AudioEngine.playDrum.
  destruct (AudioEngine.ctx e) as [cx|]; [|done].
  destruct Hun as [Hctx|Hinit]; [done|]. by rewrite Hinit.
Qed.

Lemma triggers_noop_when_uninitialized_witness :
  AudioEngine.playTone (fun _ => AudioEngine.ThrowsAfterStart) 10 "sine" 0 (Num 0.8)
                       AudioEngine.new
    = Returns (AudioEngine.new, []) /\
  AudioEngine.playDrum (fun _ => AudioEngine.ThrowsAfterStart) 10 (Num 0.8)
                       AudioEngine.new
    = Returns (AudioEngine.new, []).
Proof.
  apply (triggers_noop_when_uninitialized (fun _ => AudioEngine.ThrowsAfterStart)
           10 "sine" 0%R (Num 0.8) AudioEngine.new).
  left. reflexivity.
Defined.

(** ** Brightness query *)

Section BrightnessFacts.
Local Open Scope R_scope.

Ltac split_conditions :=
  repeat (case_bool_decide; simpl); repeat case_decide; simpl.

Lemma rippleStep_nonneg now r c eff b :
  now - eff_startTime eff <= 600 -> 0 <= b -> 0 <= rippleStep now r c eff b.
Proof.
  intros Hage Hb. unfold rippleStep. cbv zeta.
  case_decide as Hd; [|done].
  set (d := Math_abs _) in *. set (td := now - eff_startTime eff) in *.
  assert (0 <= (1.0 - d) * (1 - td / 600)); [|lra].
  apply Rmult_le_pos; lra.
Qed.

Lemma gravityStep_nonneg r c eff b : 0 <= b -> 0 <= gravityStep r c eff b.
Proof.
  intros Hb. unfold gravityStep. cbv zeta.
  set (dy := Math_abs (r - eff_y eff)). set (dx := Math_abs (c - eff_c eff)).
  split_conditions; lra.
Qed.

Lemma particleStep_nonneg r c eff b p :
  0 <= p !!! "life" -> 0 <= b -> 0 <= particleStep r c eff b p.
Proof.
  intros Hlife Hb. unfold particleStep. cbv zeta.
  set (d := sqrt _). set (size := 0.5 * p !!! "scale").
  assert (Hd : 0 <= d) by apply sqrt_pos.
  destruct (_ || _); [done|].
  case_decide as Hlt; [|done].
  assert (Hq : d / size <= 1).
  { apply (Rmult_le_reg_r size); [lra|].
    unfold Rdiv. rewrite Rmult_assoc, Rinv_l by lra. lra. }
  assert (0 <= (1.0 - d / size) * p !!! "life"); [|lra].
  apply Rmult_le_pos; lra.
Qed.

Lemma splashStep_nonneg r c eff b :
  Forall (fun p => 0 <= p !!! "life") (eff_particles eff) ->
  0 <= b -> 0 <= splashStep r c eff b.
Proof.
  unfold splashStep. intros Hall. revert b.
  induction Hall as [|p ps Hp _ IH]; intros b Hb; [done|].
  simpl. apply IH. by apply particleStep_nonneg.
Qed.

Lemma starStep_nonneg now r c eff b : 0 <= b -> 0 <= starStep now r c eff b.
Proof.
  intros Hb. unfold starStep. cbv zeta.
  set (life := 1 - (now - eff_startTime eff) / 600).
  set (dR := Math_abs (r - eff_r eff)). set (dC := Math_abs (c - eff_c eff)).
  assert (HdR : 0 <= dR) by apply Rabs_pos.
  assert (HdC : 0 <= dC) by apply Rabs_pos.
  case_decide as Hlife; [|done].
  assert (Harm : dR < 4 -> dC < 4 -> 0 <= (1 - Math_max dR dC / 4) * life).
  { intros H1 H2. apply Rmult_le_pos; [|lra].
    unfold Math_max, Rmax. destruct (Rle_dec dR dC); lra. }
  assert (Hdiag : dR < 3 -> 0 <= (1 - dR / 3) * life * 0.7).
  { intros H1. apply Rmult_le_pos; [apply Rmult_le_pos|]; lra. }
  split_conditions; try lra;
    repeat match goal with
           | H : dR = 0 |- _ => pose proof (Harm ltac:(lra) ltac:(lra)); clear Harm
           | H : dC = 0 |- _ => pose proof (Harm ltac:(lra) ltac:(lra)); clear Harm
           | H : dR < 3 |- _ => pose proof (Hdiag H); clear Hdiag
           end; lra.
Qed.

Lemma brightnessLoop_nonneg a now r c visit b :
  Forall (withinLife a now) visit -> 0 <= b -> 0 <= brightnessLoop a now r c visit b.
Proof.
  intros Hall. revert b.
  induction Hall as [|eff rest Heff _ IH]; intros b Hb; [done|].
  simpl. case_bool_decide as Hlayer; simpl; [|by apply IH].
  destruct (_ && _ && _); [by apply IH|].
  destruct (Heff Hlayer) as [Hripple Hsplash].
  set (b' := match eff_type eff with RIPPLE => _ | _ => _ end).
  assert (Hb' : 0 <= b').
  { unfold b'. destruct (eff_type eff).
    - apply rippleStep_nonneg; auto.
    - by apply gravityStep_nonneg.
    - apply splashStep_nonneg; auto.
    - by apply starStep_nonneg. }
  case_decide; [done|]. by apply IH.
Qed.

Lemma brightnessLoop_no_contribution a now r c visit :
  Forall (fun eff => ~ contributes a now r c eff) visit ->
  brightnessLoop a now r c visit 0 = 0.
Proof.
  induction 1 as [|eff rest Hno _ IH]; [done|].
  assert (Hzero : contribution a now r c eff = 0).
  { unfold contributes in Hno. by destruct (decide (contribution a now r c eff = 0)). }
  unfold contribution in Hzero. simpl.
  destruct (negb (bool_decide (eff_layerIdx eff = a))); [exact IH|].
  destruct (_ && _ && _); [exact IH|].
  rewrite Hzero. rewrite decide_False by lra. exact IH.
Qed.

Lemma brightnessLoop_other_layers a now r c visit b :
  Forall (fun eff => eff_layerIdx eff <> a) visit ->
  brightnessLoop a now r c visit b = b.
Proof.
  induction 1 as [|eff rest Hne _ IH]; [done|].
  simpl. by rewrite bool_decide_eq_false_2.
Qed.
End BrightnessFacts.

(** C2 (as the program has it).  The brightness query returns exactly 0
    when no live effect of the active layer contributes at that cell, in
    particular when no live effect belongs to the active layer; it never
    returns more than 1, whatever the effects and their ages; and it
    returns a value between 0 and 1 when, at the query time, every RIPPLE
    effect of the active layer is at most 600 ms old and no particle of a
    SPLASH effect of the active layer has a negative life. *)
Theorem brightness_bounds (effects : list Effect) (activeLayerIdx : nat) (now r c : R) :
  (getCellBrightness effects activeLayerIdx now r c <= 1)%R /\
  (Forall (fun eff => eff_layerIdx eff <> activeLayerIdx) effects ->
   getCellBrightness effects activeLayerIdx now r c = 0%R) /\
  (Forall (withinLife activeLayerIdx now) effects ->
   (0 <= getCellBrightness effects activeLayerIdx now r c <= 1)%R) /\
  (Forall (fun eff => ~ contributes activeLayerIdx now r c eff) effects ->
   getCellBrightness effects activeLayerIdx now r c = 0%R).
Proof.
  unfold getCellBrightness, Math_min.
  split; [apply Rmin_l|]. split; [|split].
  - intros Hall. rewrite brightnessLoop_other_layers by (by apply Forall_rev).
    apply Rmin_right. lra.
  - intros Hall. split; [|apply Rmin_l].
    apply Rmin_glb; [lra|].
    apply brightnessLoop_nonneg; [by apply Forall_rev|lra].
  - intros Hall. rewrite brightnessLoop_no_contribution by (by apply Forall_rev).
    apply Rmin_right. lra.
Qed.

Lemma brightness_bounds_witness :
  let ripple := mkEffect 0.25 RIPPLE 0 0 0 "#60a5fa" 0 0 0 [] in
  let star := mkEffect 0.5 STAR 0 0 0 "#60a5fa" 0 0 0 [] in
  (0 <= getCellBrightness [ripple] 0 300 4 0 <= 1)%R /\
  getCellBrightness [ripple] 1 300 4 0 = 0%R /\
  getCellBrightness [star] 0 300 10 5 = 0%R.
Proof.
  intros ripple star.
  destruct (brightness_bounds [ripple] 0 300 4 0) as (_ & _ & Hin & _).
  destruct (brightness_bounds [ripple] 1 300 4 0) as (_ & Hzero & _).
  destruct (brightness_bounds [star] 0 300 10 5) as (_ & _ & _ & Hcell).
  split; [|split].
  - apply Hin. apply Forall_singleton. intros _. simpl.
    split; [intros _; lra|discriminate].
  - apply Hzero. apply Forall_singleton. simpl. lia.
  - apply Hcell. apply Forall_singleton. intros Hc. apply Hc.
    unfold contribution, starStep. simpl.
    assert (H10 : Math_abs (0 - 10) = 10%R)
      by (unfold Math_abs; rewrite Rabs_left by lra; lra).
    assert (H5 : Math_abs (0 - 5) = 5%R)
      by (unfold Math_abs; rewrite Rabs_left by lra; lra).
    assert (H10' : Math_abs (10 - 0) = 10%R)
      by (unfold Math_abs; rewrite Rabs_pos_eq by lra; lra).
    assert (H5' : Math_abs (5 - 0) = 5%R)
      by (unfold Math_abs; rewrite Rabs_pos_eq by lra; lra).
    rewrite H10, H5, H10', H5'.
    repeat (case_bool_decide; simpl); repeat case_decide; lra.
Defined.

(** C2 fails as stated.  A RIPPLE inserted at time 0 is kept by the
    simulation pass at time 600; queried at time 660 at the cell 8 rows
    below its origin it contributes 0.92 * (1 - 660 / 600), and the
    query returns -0.092, which is below 0. *)
Lemma brightness_negative_counterexample :
  let ripple := mkEffect 0.25 RIPPLE 0 0 0 "#60a5fa" 0 0 0 [] in
  addVisualEffect 0 (fun _ => 0.25%R) 0 0 RIPPLE "#60a5fa" 0 [] = [ripple] /\
  updatePhysics 600 [ripple] = [ripple] /\
  getCellBrightness [ripple] 0 660 8 0 = (-0.092)%R /\
  ~ (0 <= getCellBrightness [ripple] 0 660 8 0 <= 1)%R.
Proof.
  intros ripple.
  assert (Hval : getCellBrightness [ripple] 0 660 8 0 = (-0.092)%R).
  { unfold getCellBrightness. simpl.
    rewrite bool_decide_eq_false_2; [simpl|].
    2:{ unfold Math_abs. rewrite Rabs_left by lra. lra. }
    unfold rippleStep. simpl.
    assert (Hdist : Math_max (Math_abs (8 - 0)) (Math_abs (0 - 0)) = 8%R).
    { unfold Math_max, Math_abs. rewrite !Rabs_pos_eq by lra.
      rewrite Rmax_left by lra. lra. }
    rewrite Hdist.
    assert (Hdiff : Math_abs (8 - (660 - 0) * 0.012) = 0.08%R).
    { unfold Math_abs. rewrite Rabs_pos_eq by lra. lra. }
    rewrite Hdiff.
    destruct (decide (0.08 < 1.0)%R) as [_|Hn]; [|exfalso; lra].
    destruct (decide _); unfold Math_min; rewrite Rmin_right by lra; lra. }
  split; [reflexivity|]. split; [|split; [exact Hval|]].
  - unfold updatePhysics. simpl.
    unfold stepEffect. simpl. by rewrite decide_False by lra.
  - rewrite Hval. lra.
Qed.

(** * Further properties *)

(** ** Audio engine: outcomes of the triggers *)

Section TriggerFacts.
Import AudioEngine.
Local Open Scope R_scope.

Lemma volume_clamp_bounds v : 0 <= Math_max 0 (Math_min 1 v) <= 1.
Proof.
  unfold Math_max, Math_min. split; [apply Rmax_l|].
  apply Rmax_lub; [lra|apply Rmin_l].
Qed.

Lemma volume_clamp_idem v :
  Math_max 0 (Math_min 1 (Math_max 0 (Math_min 1 v))) = Math_max 0 (Math_min 1 v).
Proof.
  pose proof (volume_clamp_bounds v) as [H0 H1].
  unfold Math_max, Math_min in *.
  rewrite (Rmin_right 1 (Rmax 0 (Rmin 1 v))) by done.
  by rewrite (Rmax_right 0 (Rmax 0 (Rmin 1 v))).
Qed.

Lemma volume_clampN_idem n :
  Math_maxN (Num 0) (Math_minN (Num 1) (Math_maxN (Num 0) (Math_minN (Num 1) n)))
  = Math_maxN (Num 0) (Math_minN (Num 1) n).
Proof. destruct n as [v|]; [|done]. simpl. by rewrite volume_clamp_idem. Qed.

Lemma volume_clampN_gain v : gainWithin 1 (Math_maxN (Num 0) (Math_minN (Num 1) (Num v))).
Proof. eexists. split; [done|]. apply volume_clamp_bounds. Qed.

Lemma withCtx_same e cx : ctx e = Some cx -> withCtx e cx = e.
Proof. intros H. destruct e. simpl in *. unfold withCtx. simpl. by rewrite H. Qed.

Lemma startVoice_cases throws e cx v later line :
  ctx e = Some cx ->
  exists e' log,
    (let '(cx', outcome) := startVoice throws v later cx in
     try_catch
       (match outcome with
        | Returns _ => Returns (withCtx e cx', [])
        | Throws err => Throws err
        end)
       (fun _ => (withCtx e cx', [line]))) = Returns (e', log) /\
    voiceCases e e' cx v line log.
Proof.
  intros Hctx. unfold startVoice, voiceCases.
  destruct (throws v); [| |destruct later]; simpl; eexists _, _;
    (split; [reflexivity|]); rewrite ?(withCtx_same e cx Hctx); auto.
Qed.

Lemma playDrum_cases throws row rawVolume e :
  (playDrum throws row rawVolume e = Returns (e, []) /\
   (ctx e = None \/ isInitialized e = false)) \/
  (exists cx v e' log, ctx e = Some cx /\ isInitialized e = true /\
     playDrum throws row rawVolume e = Returns (e', log) /\
     voiceCases e e' cx v "Audio synthesis error (Drum):" log /\
     (forall x, rawVolume = Num x -> voiceOk cx v)).
Proof.
  unfold playDrum. destruct (ctx e) as [cx|] eqn:Hctx; [|left; auto].
  destruct (isInitialized e) eqn:Hinit; simpl; [|left; auto].
  right. exists cx.
  set (volume := Math_maxN (Num 0) (Math_minN (Num 1) rawVolume)).
  assert (Hgain : forall x, rawVolume = Num x -> gainWithin 1 volume).
  { intros x ->. apply volume_clampN_gain. }
  repeat case_decide;
    match goal with
    | |- context [startVoice throws ?v ?later cx] =>
        destruct (startVoice_cases throws e cx v later
                    "Audio synthesis error (Drum):" Hctx) as (e' & log & Hrun & Hcases);
        exists v, e', log
    end;
    (split; [done|]); (split; [done|]); (split; [exact Hrun|]);
    (split; [exact Hcases|]); intros x Hx; simpl; split; eauto.
Qed.

Lemma playTone_cases throws row layerType baseOctave rawVolume e :
  (playTone throws row layerType baseOctave rawVolume e = Returns (e, []) /\
   (ctx e = None \/ isInitialized e = false)) \/
  (exists cx v e' log line, ctx e = Some cx /\ isInitialized e = true /\
     playTone throws row layerType baseOctave rawVolume e = Returns (e', log) /\
     voiceCases e e' cx v line log /\
     (forall x, rawVolume = Num x -> voiceOk cx v)).
Proof.
  unfold playTone. destruct (ctx e) as [cx|] eqn:Hctx; [|left; auto].
  destruct (isInitialized e) eqn:Hinit; simpl; [|left; auto].
  right. exists cx.
  case_bool_decide as Hdrum.
  - destruct (playDrum_cases throws row (Math_maxN (Num 0) (Math_minN (Num 1) rawVolume)) e)
      as [[_ [H|H]]|(cx' & v & e' & log & Hcx' & _ & Hrun & Hcases & Hok)];
      try congruence.
    simplify_eq. exists v, e', log, "Audio synthesis error (Drum):".
    repeat split; try done. intros x ->. by eapply Hok.
  - set (volume := Math_maxN (Num 0) (Math_minN (Num 1) rawVolume)).
    assert (Hgain : forall k x, 0 <= k <= 0.6 -> rawVolume = Num x ->
                                gainWithin 0.6 (Nscale k volume)).
    { intros k x Hk ->. simpl. eexists. split; [done|].
      pose proof (volume_clamp_bounds x). nra. }
    set (freq0 := CONSTANTS.BASE_FREQ * _).
    set (freq1 := if decide (baseOctave = 0) then freq0 else _).
    set (freq := if decide (freq1 > sampleRate cx / 2) then _ else freq1).
    assert (Hfreq : freq <= sampleRate cx / 2).
    { unfold freq. case_decide; lra. }
    assert (Hsafe : safeType layerType ∈ ["sine"; "square"; "sawtooth"; "triangle"]).
    { unfold safeType. case_bool_decide; [done|]. apply list_elem_of_here. }
    destruct (bool_decide (layerType = "square"));
      [|destruct (bool_decide (layerType = "triangle"))];
      match goal with
      | |- context [startVoice throws ?v true cx] =>
          destruct (startVoice_cases throws e cx v true
                      "Audio synthesis error (Tone):" Hctx) as (e' & log & Hrun & Hcases);
          exists v, e', log, "Audio synthesis error (Tone):"
      end;
      (split; [done|]); (split; [done|]); (split; [exact Hrun|]);
      (split; [exact Hcases|]); intros x Hx; simpl;
      (split; [done|]); (split; [apply (Hgain _ x); [lra|done]|]);
      repeat split; try done; lra.
Qed.

Lemma voiceCases_outcome e e' cx v line log :
  ctx e = Some cx -> voiceCases e e' cx v line log -> triggerOutcome e e' log.
Proof.
  intros Hctx [[-> ->]|[[-> ->]|[-> ->]]]; unfold triggerOutcome; simpl;
    repeat split; try lia; auto.
  - right. exists v. unfold engineVoices. simpl. rewrite Hctx. auto.
  - right. exists (Interrupted v). unfold engineVoices. simpl. rewrite Hctx. eauto.
Qed.

(** X1. Neither trigger ever throws to its caller, whatever the platform
    does and whatever the volume, [NaN] included.  It returns with at most
    one console line, the master gain, the compressor and the
    initialization flag untouched, and the engine unchanged or with
    exactly one more voice; a voice that comes together with a console
    line is one whose source was started before a later platform call
    threw. *)
Theorem triggers_never_throw
    (throws : Voice -> Fault) (row : nat) (layerType : string)
    (baseOctave : R) (rawVolume : Number) (e : t) :
  (exists e' log,
     playTone throws row layerType baseOctave rawVolume e = Returns (e', log) /\
     triggerOutcome e e' log) /\
  (exists e' log,
     playDrum throws row rawVolume e = Returns (e', log) /\
     triggerOutcome e e' log).
Proof.
  assert (Hsame : triggerOutcome e e []).
  { unfold triggerOutcome. simpl. repeat split; auto. }
  split.
  - destruct (playTone_cases throws row layerType baseOctave rawVolume e)
      as [[H _]|(cx & v & e' & log & line & Hcx & _ & H & Hcases & _)].
    + exists e, []. by split.
    + exists e', log. split; [done|]. by eapply voiceCases_outcome.
  - destruct (playDrum_cases throws row rawVolume e)
      as [[H _]|(cx & v & e' & log & Hcx & _ & H & Hcases & _)].
    + exists e, []. by split.
    + exists e', log. split; [done|]. by eapply voiceCases_outcome.
Qed.

(** X2. When a trigger with a numeric volume changes the engine, it has
    added exactly one voice and changed nothing else.  With nothing
    logged the voice is complete and within the limits of the engine: a
    percussion voice has a gain between 0 and 1, a tone has a frequency of
    at most half the sample rate, a peak gain between 0 and 0.6, one of
    the four oscillator waveforms, and start < attack end < decay end <
    stop.  With a console line, the source of such a voice was started and
    the platform threw before the trigger had finished scheduling it. *)
Theorem started_voice_within_limits
    (throws : Voice -> Fault) (row : nat) (layerType : string)
    (baseOctave rawVolume : R) (e e' : t) (cx : AudioContext) (log : list string) :
  ctx e = Some cx ->
  (playTone throws row layerType baseOctave (Num rawVolume) e = Returns (e', log) \/
   playDrum throws row (Num rawVolume) e = Returns (e', log)) ->
  e' <> e ->
  exists v, voiceOk cx v /\
    ((log = [] /\ e' = withVoice e cx v) \/
     (length log = 1%nat /\ e' = withVoice e cx (Interrupted v))) /\
    masterGain e' = masterGain e /\ compressor e' = compressor e /\
    isInitialized e' = true.
Proof.
  intros Hctx Hrun Hne.
  assert (Hcase : exists v line, voiceOk cx v /\ isInitialized e = true /\
                    voiceCases e e' cx v line log).
  { destruct Hrun as [Hrun|Hrun].
    - destruct (playTone_cases throws row layerType baseOctave (Num rawVolume) e)
        as [[H _]|(cx' & v & e'' & log' & line & Hcx' & Hi & H & Hcases & Hok)];
        rewrite H in Hrun; simplify_eq. eauto 10.
    - destruct (playDrum_cases throws row (Num rawVolume) e)
        as [[H _]|(cx' & v & e'' & log' & Hcx' & Hi & H & Hcases & Hok)];
        rewrite H in Hrun; simplify_eq. eauto 10. }
  destruct Hcase as (v & line & Hv & Hi & [[-> ->]|[[-> ->]|[-> ->]]]);
    [|done|]; exists v; (split; [done|]); simpl; repeat split; auto.
Qed.

Lemma started_voice_within_limits_witness :
  let cx := mkAudioContext 2 44100 false [] in
  let e := mkEngine (Some cx) (Some 0.4) None true in
  let kick := Kick (Math_maxN (Num 0) (Math_minN (Num 1) (Num 5))) 2 in
  exists v, voiceOk cx v /\
    ((@nil string = [] /\ withVoice e cx kick = withVoice e cx v) \/
     (length (@nil string) = 1%nat /\ withVoice e cx kick = withVoice e cx (Interrupted v))) /\
    masterGain (withVoice e cx kick) = masterGain e /\
    compressor (withVoice e cx kick) = compressor e /\
    isInitialized (withVoice e cx kick) = true.
Proof.
  intros cx e kick.
  apply (started_voice_within_limits (fun _ => NoThrow) 13 "sine" 0 5 e
           (withVoice e cx kick) cx []).
  - reflexivity.
  - right. reflexivity.
  - intros H. apply (f_equal engineVoices) in H. discriminate H.
Defined.

(** X3. A tone on a drum layer is the percussion trigger: [playTone]
    with waveform kind ["drum"] does exactly what [playDrum] does with
    the same row and raw volume (the volume is clamped twice, to the same
    value). *)
Theorem playTone_drum_is_playDrum
    (throws : Voice -> Fault) (row : nat) (baseOctave : R) (rawVolume : Number) (e : t) :
  playTone throws row "drum" baseOctave rawVolume e = playDrum throws row rawVolume e.
Proof.
  unfold playTone. destruct (ctx e) as [cx|] eqn:Hctx.
  - destruct (isInitialized e) eqn:Hinit; cbn [negb].
    + rewrite bool_decide_eq_true_2 by done.
      unfold playDrum. rewrite Hctx, Hinit. cbn [negb].
      by rewrite volume_clampN_idem.
    + unfold playDrum. by rewrite Hctx, Hinit.
  - unfold playDrum. by rewrite Hctx.
Qed.
End TriggerFacts.

(** ** Audio engine: lifecycle *)

Section LifecycleFacts.
Import AudioEngine.
Local Open Scope R_scope.

Lemma voiceCases_bus e e' cx v line log :
  ctx e = Some cx -> voiceCases e e' cx v line log ->
  masterGain e' = masterGain e /\ compressor e' = compressor e /\
  isInitialized e' = isInitialized e /\ (is_Some (ctx e') <-> is_Some (ctx e)).
Proof.
  intros Hctx [[-> ->]|[[-> ->]|[-> ->]]]; simpl; rewrite ?Hctx;
    repeat split; eauto.
Qed.

Lemma trigger_keeps_bus throws row layerType baseOctave rawVolume e e' log :
  playTone throws row layerType baseOctave rawVolume e = Returns (e', log) \/
  playDrum throws row rawVolume e = Returns (e', log) ->
  masterGain e' = masterGain e /\ compressor e' = compressor e /\
  isInitialized e' = isInitialized e /\ (is_Some (ctx e') <-> is_Some (ctx e)).
Proof.
  intros [Hrun|Hrun].
  - destruct (playTone_cases throws row layerType baseOctave rawVolume e)
      as [[H _]|(cx & v & e'' & log' & line & Hcx & _ & H & Hcases & _)];
      rewrite H in Hrun; simplify_eq; [done|].
    by eapply voiceCases_bus.
  - destruct (playDrum_cases throws row rawVolume e)
      as [[H _]|(cx & v & e'' & log' & Hcx & _ & H & Hcases & _)];
      rewrite H in Hrun; simplify_eq; [done|].
    by eapply voiceCases_bus.
Qed.

(** X4. In every state of the engine, when the initialization flag is set
    the engine has an audio context, a master gain of 0.4 and the
    compressor with threshold -24, knee 30, ratio 12, attack 0.003 and
    release 0.25: a trigger that passes the guard finds the master bus it
    connects its voice to. *)
Theorem initialized_engine_has_bus (e : t) :
  engineReachable e ->
  isInitialized e = true ->
  is_Some (ctx e) /\ masterGain e = Some 0.4 /\
  compressor e = Some (mkCompressor (-24) 30 12 0.003 0.25).
Proof.
  induction 1 as [|h e e' log _ IH Hinit|e _ IH
                  |throws row ty oct vol e e' log _ IH Hrun
                  |throws row vol e e' log _ IH Hrun].
  - discriminate.
  - revert Hinit. unfold init.
    destruct (hostWindow h); simpl; [|intros [= <- _]; exact IH].
    destruct (ctx e) as [cx|] eqn:Hctx.
    + destruct (suspended cx); [destruct (hostFault h)|];
        intros [= <- _]; simpl; try (rewrite Hctx in IH; exact IH);
        intros Hi; destruct (IH Hi) as (_ & -> & ->); eauto.
    + assert (Hoff : isInitialized e = false).
      { destruct (isInitialized e); [|done]. by destruct (IH eq_refl) as [[? ?] _]. }
      destruct (hostContext h) as [cx|]; [|intros [= <- _]; congruence].
      destruct (hostFault h); try destruct (suspended cx);
        intros [= <- _]; simpl; try congruence; eauto.
  - unfold dispose. destruct (ctx e) eqn:Hc; [discriminate|].
    intros Hi. rewrite Hc. exact (IH Hi).
  - destruct (trigger_keeps_bus throws row ty oct vol e e' log) as (-> & -> & -> & ->);
      [by left|done].
  - destruct (trigger_keeps_bus throws row "sine" 0 vol e e' log) as (-> & -> & -> & ->);
      [by right|done].
Qed.

Lemma initialized_engine_has_bus_witness :
  let cx := mkAudioContext 0 48000 true [] in
  let e' := mkEngine (Some (resumed cx)) (Some 0.4%R)
                     (Some (mkCompressor (-24) 30 12 0.003 0.25)) true in
  is_Some (ctx e') /\ masterGain e' = Some 0.4%R /\
  compressor e' = Some (mkCompressor (-24) 30 12 0.003 0.25).
Proof.
  intros cx e'.
  apply (initialized_engine_has_bus e'); [|reflexivity].
  apply (engine_init (mkHost true (Some cx) NoFault) new e' []);
    [apply engine_new|reflexivity].
Defined.

(** X5. [init] can be called again safely: once it has built the audio
    graph on a host with an audio context and no platform fault, the
    engine is initialized, its context is running, nothing was logged,
    and a further [init], on any host, returns the same engine and logs
    nothing. *)
Theorem init_again_changes_nothing (h h' : Host) (cx : AudioContext) (e e' : t)
    (log : list string) :
  hostWindow h = true -> hostContext h = Some cx -> hostFault h = NoFault ->
  ctx e = None ->
  init h e = Returns (e', log) ->
  log = [] /\ isInitialized e' = true /\ ctx e' = Some (resumed cx) /\
  init h' e' = Returns (e', []).
Proof.
  intros Hw Hc Hf Hctx. unfold init at 1. rewrite Hw, Hctx, Hc, Hf. simpl.
  intros [= <- <-]. repeat split; try done.
  unfold init. simpl. by destruct (hostWindow h').
Qed.

Lemma init_again_changes_nothing_witness :
  let cx := mkAudioContext 0 48000 true [] in
  let e' := mkEngine (Some (resumed cx)) (Some 0.4%R)
                     (Some (mkCompressor (-24) 30 12 0.003 0.25)) true in
  @nil string = [] /\ isInitialized e' = true /\ ctx e' = Some (resumed cx) /\
  init (mkHost false None AtConnect) e' = Returns (e', []).
Proof.
  intros cx e'.
  apply (init_again_changes_nothing (mkHost true (Some cx) NoFault)
           (mkHost false None AtConnect) cx new e' []); reflexivity.
Defined.

(** X6. After [dispose] the engine has no context and is not initialized,
    both triggers are no-ops on it, and a second [dispose] changes
    nothing; the master gain and the compressor fields are kept. *)
Theorem dispose_silences_engine
    (throws : Voice -> Fault) (row : nat) (layerType : string)
    (baseOctave : R) (rawVolume : Number) (e : t) :
  ctx (dispose e) = None /\
  (is_Some (ctx e) -> isInitialized (dispose e) = false) /\
  masterGain (dispose e) = masterGain e /\ compressor (dispose e) = compressor e /\
  dispose (dispose e) = dispose e /\
  playTone throws row layerType baseOctave rawVolume (dispose e) = Returns (dispose e, []) /\
  playDrum throws row rawVolume (dispose e) = Returns (dispose e, []).
Proof.
  assert (Hctx : ctx (dispose e) = None).
  { unfold dispose. by destruct (ctx e) eqn:H. }
  split; [done|]. split; [|split; [|split; [|split; [|split]]]].
  - intros [cx Hcx]. unfold dispose. by rewrite Hcx.
  - unfold dispose. by destruct (ctx e).
  - unfold dispose. by destruct (ctx e).
  - unfold dispose at 1. by rewrite Hctx.
  - unfold playTone. by rewrite Hctx.
  - unfold playDrum. by rewrite Hctx.
Qed.

Lemma dispose_silences_engine_witness :
  let e := mkEngine (Some (mkAudioContext 1 48000 false [])) (Some 0.4%R) None true in
  isInitialized (dispose e) = false.
Proof.
  intros e.
  apply (dispose_silences_engine (fun _ => NoThrow) 0 "sine" 0 (Num 0.8) e).
  simpl. eauto.
Defined.
End LifecycleFacts.

(** ** Pattern grids: shape, edges and composition *)

Section PadFacts.
Implicit Types (g : Grids) (layer : Layer) (row : Row) (s : Pad).

Lemma wfGrids_alt g : wfGrids g <-> length g = length LAYERS_CONFIG /\ Forall wfLayer g.
Proof. done. Qed.

Lemma emptyLayer_wf : wfLayer emptyLayer.
Proof.
  split; [apply length_replicate|].
  apply Forall_replicate. split; [apply length_replicate|].
  apply Forall_replicate. eauto.
Qed.

Lemma wfGrids_insert g a layer : wfGrids g -> wfLayer layer -> wfGrids (<[a := layer]> g).
Proof.
  intros [Hlen Hall] Hl. apply wfGrids_alt. rewrite length_insert.
  split; [done|]. by apply Forall_insert.
Qed.

Lemma wfLayer_insert layer r row : wfLayer layer -> wfRow row -> wfLayer (<[r := row]> layer).
Proof.
  intros [Hlen Hall] Hr. split; [by rewrite length_insert|]. by apply Forall_insert.
Qed.

Lemma wfRow_assign row c v : wfRow row -> c < length row -> wfRow (js_assign c v row).
Proof.
  intros [Hlen Hall] Hc. rewrite js_assign_in_range by done.
  split; [by rewrite length_insert|]. apply Forall_insert; eauto.
Qed.

Lemma wfGrids_lookup g a layer r row :
  wfGrids g -> g !! a = Some layer -> layer !! r = Some row -> wfLayer layer /\ wfRow row.
Proof.
  intros [_ Hall] Hl Hr.
  pose proof (proj1 (Forall_lookup _ _) Hall a layer Hl) as Hwl.
  split; [done|]. destruct Hwl as [_ Hrows].
  exact (proj1 (Forall_lookup _ _) Hrows r row Hr).
Qed.

Lemma toggleCell_update_wf g a r c :
  c < CONSTANTS.COLS -> wfGrids g -> wfGrids (toggleCell_update a r c g).
Proof.
  intros Hc Hwf. unfold toggleCell_update. cbv zeta.
  destruct (g !! a) as [layer|] eqn:Hl; [|done].
  destruct (layer !! r) as [row|] eqn:Hr; [|done].
  destruct (wfGrids_lookup g a layer r row Hwf Hl Hr) as [Hwl Hwr].
  apply wfGrids_insert; [done|]. apply wfLayer_insert; [done|].
  apply wfRow_assign; [done|]. destruct Hwr as [-> _]. done.
Qed.

Lemma paint_update_wf g a r c : wfGrids g -> wfGrids (paint_update a r c g).
Proof.
  intros Hwf. unfold paint_update. cbv zeta.
  destruct (g !! a) as [layer|] eqn:Hl; [|done].
  destruct (layer !! r) as [row|] eqn:Hr; simpl; [|done].
  destruct (js_index row c) as [[|]|] eqn:Hc; try done.
  destruct (wfGrids_lookup g a layer r row Hwf Hl Hr) as [Hwl Hwr].
  apply wfGrids_insert; [done|]. apply wfLayer_insert; [done|].
  apply wfRow_assign; [done|].
  unfold js_index in Hc. destruct (row !! c) eqn:Hrc; [|done].
  by eapply lookup_lt_Some.
Qed.

Lemma handleClear_update_wf g a : wfGrids g -> wfGrids (handleClear_update a g).
Proof.
  intros Hwf. unfold handleClear_update. cbv zeta.
  destruct (g !! a); [|done]. apply wfGrids_insert; [done|apply emptyLayer_wf].
Qed.

Lemma sameCell_refl r c : sameCell (Some (r, c)) r c = true.
Proof. unfold sameCell. by rewrite !bool_decide_eq_true_2. Qed.

(** The grids after an edit of the active layer: as before, or with the
    active layer replaced. *)
Lemma toggleCell_update_shape g a r c :
  toggleCell_update a r c g = g \/
  exists layer', a < length g /\ toggleCell_update a r c g = <[a := layer']> g.
Proof.
  unfold toggleCell_update. cbv zeta.
  destruct (g !! a) as [layer|] eqn:Hl; [|by left].
  destruct (layer !! r) as [row|]; [|by left].
  right. eexists. split; [by eapply lookup_lt_Some|done].
Qed.

Lemma paint_update_shape g a r c :
  paint_update a r c g = g \/
  exists layer', a < length g /\ paint_update a r c g = <[a := layer']> g.
Proof.
  unfold paint_update. cbv zeta.
  destruct (g !! a) as [layer|] eqn:Hl; [|by left].
  destruct (layer !! r) as [row|]; simpl; [|by left].
  destruct (js_index row c) as [[|]|]; try by left.
  right. eexists. split; [by eapply lookup_lt_Some|done].
Qed.

Lemma handleClear_update_absorbs g g' a :
  g' = g \/ (exists layer', a < length g /\ g' = <[a := layer']> g) ->
  handleClear_update a g' = handleClear_update a g.
Proof.
  intros [->|(layer' & Hlt & ->)]; [done|].
  unfold handleClear_update. cbv zeta.
  rewrite list_lookup_insert_eq by done.
  destruct (lookup_lt_is_Some_2 _ _ Hlt) as [old ->].
  by rewrite list_insert_insert_eq.
Qed.

(** X7. Whatever sequence of layer selections, clears, presses on
    rendered cells and drag steps is applied to the initial pad, the grids
    keep their shape: one layer per entry of [LAYERS_CONFIG], 16 rows of
    16 cells each, every cell a boolean; and the active layer index stays
    an index of a layer. *)
Theorem grids_keep_shape s :
  padReachable s ->
  wfGrids (grids s) /\ activeLayerIdx s < length (grids s).
Proof.
  induction 1 as [|idx s Hidx _ [IHw IHa]|s _ [IHw IHa]|r c s Hr Hc _ [IHw IHa]
                  |s _ IH|s _ IH|r c s _ [IHw IHa]|target s _ [IHw IHa]].
  - split; [|simpl; lia]. split; [done|].
    apply Forall_fmap, Forall_forall. intros layer _. apply emptyLayer_wf.
  - simpl. split; [done|]. destruct IHw as [-> _]. done.
  - simpl. split; [by apply handleClear_update_wf|].
    unfold handleClear_update. cbv zeta.
    destruct (grids s !! activeLayerIdx s); [by rewrite length_insert|done].
  - unfold toggleCell. destruct (grids s !! activeLayerIdx s) eqn:Hl; [|done].
    simpl. split; [by apply toggleCell_update_wf|].
    destruct (toggleCell_update_shape (grids s) (activeLayerIdx s) r c)
      as [->|(? & _ & ->)]; [done|by rewrite length_insert].
  - done.
  - done.
  - unfold handleMouseEnter. destruct (isMouseDown s); [|done].
    destruct (sameCell _ r c); [done|]. simpl.
    split; [by apply paint_update_wf|].
    destruct (paint_update_shape (grids s) (activeLayerIdx s) r c)
      as [->|(? & _ & ->)]; [done|by rewrite length_insert].
  - unfold handleTouchMove. destruct target as [[r c]|]; [|done].
    destruct (sameCell _ r c); [done|]. simpl.
    split; [by apply paint_update_wf|].
    destruct (paint_update_shape (grids s) (activeLayerIdx s) r c)
      as [->|(? & _ & ->)]; [done|by rewrite length_insert].
Qed.

Lemma grids_keep_shape_witness :
  wfGrids (grids (handleMouseEnter 20 99 (handleMouseDown
             (toggleCell 3 5 (setActiveLayerIdx 2 initialPad))))).
Proof.
  apply (grids_keep_shape
           (handleMouseEnter 20 99 (handleMouseDown
              (toggleCell 3 5 (setActiveLayerIdx 2 initialPad))))).
  apply pad_enter, pad_down, pad_toggle;
    [unfold CONSTANTS.ROWS; lia|unfold CONSTANTS.COLS; lia|].
  apply pad_layer; [simpl; lia|apply pad_init].
Defined.

(** X8. Edges of [toggleCell].  With no layer at the active index it does
    nothing at all.  With a row index outside the layer it changes no
    grid but still records the cell as last touched.  With a column index
    past the end of the row it turns the cell on (an absent cell is
    falsy) and every other cell reads as before. *)
Theorem toggleCell_out_of_range s r c :
  (grids s !! activeLayerIdx s = None -> toggleCell r c s = s) /\
  (forall layer, grids s !! activeLayerIdx s = Some layer -> length layer <= r ->
     grids (toggleCell r c s) = grids s /\
     lastTouchedRef (toggleCell r c s) = Some (r, c)) /\
  (forall layer row, grids s !! activeLayerIdx s = Some layer ->
     layer !! r = Some row -> length row <= c ->
     cellAt (grids s) (activeLayerIdx s) r c = None /\
     cellAt (grids (toggleCell r c s)) (activeLayerIdx s) r c = Some true /\
     sameElsewhere (grids s) (grids (toggleCell r c s)) (activeLayerIdx s) r c).
Proof.
  split; [|split].
  - intros Hl. unfold toggleCell. by rewrite Hl.
  - intros layer Hl Hr. unfold toggleCell. rewrite Hl. simpl.
    split; [|done]. unfold toggleCell_update. cbv zeta. rewrite Hl.
    by rewrite (lookup_ge_None_2 layer r).
  - intros layer row Hl Hr Hc.
    assert (Hnone : js_index row c = None).
    { unfold js_index. by rewrite (lookup_ge_None_2 row c). }
    assert (Hg : grids (toggleCell r c s)
                 = <[activeLayerIdx s := <[r := js_assign c true row]> layer]> (grids s)).
    { unfold toggleCell. rewrite Hl. simpl.
      rewrite (toggleCell_update_eq _ _ layer r row) by done. by rewrite Hnone. }
    split; [by rewrite (cellAt_eq _ _ layer r row)|]. rewrite Hg. split.
    + rewrite (cellAt_write (grids s) _ layer r) by eauto.
      rewrite decide_True by done. apply js_index_assign_eq.
    + intros idx' r' c' Hne.
      rewrite (cellAt_write (grids s) _ layer r) by eauto.
      case_decide as Heq; [|done]. destruct Heq as [-> ->].
      rewrite js_index_assign_ne by congruence.
      by rewrite (cellAt_eq (grids s) _ layer r row).
Qed.

Lemma toggleCell_out_of_range_witness :
  grids (toggleCell 16 0 initialPad) = grids initialPad /\
  lastTouchedRef (toggleCell 16 0 initialPad) = Some (16, 0).
Proof.
  apply (toggleCell_out_of_range initialPad 16 0) with (layer := emptyLayer);
    [reflexivity|simpl; lia].
Defined.

(** X9. A drag step is idempotent: repeating [handleMouseEnter], or
    [handleTouchMove], on the cell just processed returns the same state,
    so staying on a cell during a drag never writes it twice. *)
Theorem drag_step_idempotent s r c target :
  handleMouseEnter r c (handleMouseEnter r c s) = handleMouseEnter r c s /\
  handleTouchMove target (handleTouchMove target s) = handleTouchMove target s.
Proof.
  split.
  - unfold handleMouseEnter at 2.
    destruct (isMouseDown s) eqn:Hd; [|unfold handleMouseEnter; by rewrite Hd].
    destruct (sameCell (lastTouchedRef s) r c) eqn:Hs.
    + unfold handleMouseEnter. by rewrite Hd, Hs.
    + unfold handleMouseEnter. cbn [isMouseDown lastTouchedRef].
      by rewrite sameCell_refl, Hd, Hs.
  - destruct target as [[r' c']|]; [|done].
    unfold handleTouchMove at 2.
    destruct (sameCell (lastTouchedRef s) r' c') eqn:Hs.
    + unfold handleTouchMove. by rewrite Hs.
    + unfold handleTouchMove. cbn [lastTouchedRef]. by rewrite sameCell_refl, Hs.
Qed.

(** X10. Clearing absorbs what was edited before: clearing after a toggle
    or a drag step on any cell gives the same grids as clearing directly,
    and clearing twice is clearing once. *)
Theorem clear_absorbs_edits s r c target :
  grids (handleClear (toggleCell r c s)) = grids (handleClear s) /\
  grids (handleClear (handleMouseEnter r c s)) = grids (handleClear s) /\
  grids (handleClear (handleTouchMove target s)) = grids (handleClear s) /\
  handleClear (handleClear s) = handleClear s.
Proof.
  split; [|split; [|split]].
  - unfold toggleCell. destruct (grids s !! activeLayerIdx s); [|done]. simpl.
    apply handleClear_update_absorbs, toggleCell_update_shape.
  - unfold handleMouseEnter. destruct (isMouseDown s); [|done].
    destruct (sameCell _ r c); [done|]. simpl.
    apply handleClear_update_absorbs, paint_update_shape.
  - unfold handleTouchMove. destruct target as [[r' c']|]; [|done].
    destruct (sameCell _ r' c'); [done|]. simpl.
    apply handleClear_update_absorbs, paint_update_shape.
  - unfold handleClear. simpl. f_equal.
    unfold handleClear_update. cbv zeta.
    destruct (grids s !! activeLayerIdx s) as [layer|] eqn:Hl; [|by rewrite Hl].
    rewrite list_lookup_insert_eq by (by eapply lookup_lt_Some).
    by rewrite list_insert_insert_eq.
Qed.
End PadFacts.

(** ** Layer settings *)

(** X11. The two layer settings updaters touch the entry of the active
    layer only and keep the number of entries.  [handleVolumeChange]
    stores [clamp v 0 1] for a numeric [v], so volumes that lie between 0
    and 1 keep doing so under numeric input; it stores [NaN] for [NaN],
    so in general a stored volume lies between 0 and 1 or is [NaN].
    [changeLayerEffect] stores the chosen archetype.  With an active
    index past the end both return their input. *)
Theorem layer_settings_update
    (a : nat) (newVol : Number) (newEffect : EffectType)
    (vols : list Number) (effs : list EffectType) :
  Forall (fun n => n = NaN \/ gainWithin 1 n) vols ->
  Forall (fun n => n = NaN \/ gainWithin 1 n) (handleVolumeChange a newVol vols) /\
  (forall v, Forall (gainWithin 1) vols ->
             Forall (gainWithin 1) (handleVolumeChange a (Num v) vols)) /\
  length (handleVolumeChange a newVol vols) = length vols /\
  (forall j, j <> a -> handleVolumeChange a newVol vols !! j = vols !! j) /\
  (forall v, a < length vols ->
             handleVolumeChange a (Num v) vols !! a = Some (Num (clamp v 0 1))) /\
  (a < length vols -> handleVolumeChange a NaN vols !! a = Some NaN) /\
  (length vols <= a -> handleVolumeChange a newVol vols = vols) /\
  length (changeLayerEffect a newEffect effs) = length effs /\
  (forall j, j <> a -> changeLayerEffect a newEffect effs !! j = effs !! j) /\
  (a < length effs -> changeLayerEffect a newEffect effs !! a = Some newEffect) /\
  (length effs <= a -> changeLayerEffect a newEffect effs = effs).
Proof.
  intros Hall. unfold handleVolumeChange, changeLayerEffect. cbv zeta.
  split; [|split; [|split; [|split; [|split; [|split; [|split;
    [|split; [|split; [|split]]]]]]]]].
  - case_decide; [|done]. apply Forall_insert; [done|].
    destruct newVol as [v|]; [right|by left]. apply volume_clampN_gain.
  - intros v Hnum. case_decide; [|done].
    apply Forall_insert; [done|apply volume_clampN_gain].
  - case_decide; [|done]. apply length_insert.
  - intros j Hj. case_decide; [|done]. by rewrite list_lookup_insert_ne.
  - intros v Ha. rewrite decide_True by done. rewrite list_lookup_insert_eq by done.
    f_equal. apply clampN_num. lra.
  - intros Ha. rewrite decide_True by done. by rewrite list_lookup_insert_eq.
  - intros Ha. rewrite decide_False by lia. done.
  - case_decide; [|done]. apply length_insert.
  - intros j Hj. case_decide; [|done]. by rewrite list_lookup_insert_ne.
  - intros Ha. rewrite decide_True by done. by rewrite list_lookup_insert_eq.
  - intros Ha. rewrite decide_False by lia. done.
Qed.

Lemma layer_settings_update_witness :
  handleVolumeChange 2 (Num 5) initialLayerVolumes !! 2 = Some (Num (clamp 5 0 1)) /\
  handleVolumeChange 2 NaN initialLayerVolumes !! 2 = Some NaN.
Proof.
  assert (Hinit : Forall (fun n => n = NaN \/ gainWithin 1 n) initialLayerVolumes).
  { unfold initialLayerVolumes.
    repeat (apply Forall_cons; split; [right; eexists; split; [done|lra]|]).
    apply Forall_nil_2. }
  split.
  - apply (layer_settings_update 2 (Num 5) RIPPLE initialLayerVolumes
             initialLayerEffects Hinit). simpl. lia.
  - apply (layer_settings_update 2 NaN RIPPLE initialLayerVolumes
             initialLayerEffects Hinit). simpl. lia.
Defined.

(** ** What a tick triggers *)

Section TickFacts.
Implicit Types (g : Grids) (t : Trigger).

Lemma truthy_true v : truthy v = true <-> v = Some true.
Proof. destruct v as [[|]|]; simpl; split; congruence. Qed.

Lemma NoDup_omap_inj {A B} (f : A -> option B) (l : list A) :
  (forall x y z, f x = Some z -> f y = Some z -> x = y) ->
  NoDup l -> NoDup (omap f l).
Proof.
  intros Hinj. induction 1 as [|x l Hx _ IH]; csimpl; [constructor|].
  destruct (f x) as [z|] eqn:Hz; [|done].
  constructor; [|done].
  intros (y & Hy & Hfy)%list_elem_of_omap.
  by rewrite (Hinj x y z Hz Hfy) in Hx.
Qed.

Lemma NoDup_join_keyed {B} (key : B -> nat) (ls : list (list B)) (k : nat) :
  (forall i l, ls !! i = Some l -> NoDup l /\ forall y, y ∈ l -> key y = k + i) ->
  NoDup (mjoin ls).
Proof.
  revert k. induction ls as [|l ls IH]; intros k Hls; [constructor|].
  csimpl. apply NoDup_app. split; [|split].
  - apply (Hls 0 l). done.
  - intros y Hy (l' & Hy' & Hl')%list_elem_of_join.
    apply list_elem_of_lookup in Hl' as [j Hj].
    pose proof (proj2 (Hls 0 l eq_refl) y Hy).
    pose proof (proj2 (Hls (S j) l' Hj) y Hy'). lia.
  - apply (IH (S k)). intros i l' Hi.
    destruct (Hls (S i) l' Hi) as [Hnd Hkey]. split; [done|].
    intros y Hy. rewrite (Hkey y Hy). lia.
Qed.

Lemma elem_of_tickCalls g vols effs col t :
  t ∈ tickCalls g vols effs col <->
  exists idx layer r,
    LAYERS_CONFIG !! idx = Some layer /\ r < CONSTANTS.ROWS /\
    cellAt g idx r col = Some true /\
    t = mkTrigger r col idx layer (default (Num 0.8) (vols !! idx)) (effs !! idx).
Proof.
  unfold tickCalls. rewrite list_elem_of_join. split.
  - intros (l & Ht & Hl). apply elem_of_lookup_imap in Hl as (idx & layer & -> & Hidx).
    destruct (g !! idx) as [layerGrid|] eqn:Hg; [|by apply elem_of_nil in Ht].
    apply list_elem_of_omap in Ht as (r & Hr & Ht).
    apply elem_of_seq in Hr.
    destruct (layerGrid !! r) as [row|] eqn:Hrow; [|done].
    destruct (truthy (js_index row col)) eqn:Htr; [|done].
    apply truthy_true in Htr. exists idx, layer, r.
    split; [done|]. split; [lia|]. split; [|congruence].
    by rewrite (cellAt_eq g idx layerGrid r row).
  - intros (idx & layer & r & Hidx & Hr & Hcell & ->).
    unfold cellAt in Hcell.
    destruct (g !! idx) as [layerGrid|] eqn:Hg; [|done]. simpl in Hcell.
    destruct (layerGrid !! r) as [row|] eqn:Hrow; [|done]. simpl in Hcell.
    eexists. split; [|apply (elem_of_lookup_imap_2 _ _ _ _ Hidx)].
    cbv beta. rewrite Hg. apply list_elem_of_omap. exists r.
    split; [apply elem_of_seq; lia|].
    rewrite Hrow. by rewrite (proj2 (truthy_true _) Hcell).
Qed.

Lemma emptyLayer_never_true r c :
  (emptyLayer !! r ≫= fun row => js_index row c) <> Some true.
Proof.
  unfold emptyLayer.
  destruct (replicate CONSTANTS.ROWS (replicate CONSTANTS.COLS (Some false)) !! r)
    as [row|] eqn:Hr; [|done].
  apply lookup_replicate in Hr as [-> _].
  change (js_index (replicate CONSTANTS.COLS (Some false)) c <> Some true).
  unfold js_index.
  destruct (replicate CONSTANTS.COLS (Some false) !! c) as [x|] eqn:Hc; [|done].
  apply lookup_replicate in Hc as [-> _]. done.
Qed.

(** X12. What a tick triggers is exactly the active cells of its column:
    a trigger for row [r] of layer [idx] is issued if and only if [idx] is
    a layer of [LAYERS_CONFIG], [r] is below 16 and the cell [(r, col)] of
    that layer's grid is active; it carries the layer's configuration, its
    volume (0.8 when the layer has none) and its archetype; and no trigger
    is issued twice. *)
Theorem tick_triggers_active_cells g (vols : list Number) (effs : list EffectType)
    (col : nat) :
  (forall t, t ∈ tickCalls g vols effs col <->
     exists idx layer r,
       LAYERS_CONFIG !! idx = Some layer /\ r < 16 /\
       cellAt g idx r col = Some true /\
       t = mkTrigger r col idx layer (default (Num 0.8) (vols !! idx)) (effs !! idx)) /\
  NoDup (tickCalls g vols effs col) /\
  length (tickCalls g vols effs col) <= 64.
Proof.
  split; [apply elem_of_tickCalls|]. split.
  - unfold tickCalls. apply (NoDup_join_keyed trig_idx _ 0).
    intros i l Hl. apply list_lookup_imap_Some in Hl as (layer & _ & ->).
    cbv beta.
    destruct (g !! i) as [layerGrid|]; [|split; [constructor|by intros y ?%elem_of_nil]].
    split.
    + apply NoDup_omap_inj; [|apply NoDup_seq].
      intros x y z Hx Hy.
      destruct (layerGrid !! x); [|done]. destruct (truthy _); [|done].
      destruct (layerGrid !! y); [|done]. destruct (truthy _); [|done].
      congruence.
    + intros y (r & _ & Hr)%list_elem_of_omap.
      destruct (layerGrid !! r); [|done]. destruct (truthy _); [|done].
      by injection Hr as <-.
  - unfold tickCalls.
    assert (Hlen : forall (ls : list (list Trigger)) n,
              Forall (fun l => length l <= n) ls -> length (mjoin ls) <= length ls * n).
    { intros ls n. induction 1 as [|l ls' Hl _ IH]; csimpl; [lia|].
      rewrite length_app. lia. }
    etransitivity; [apply (Hlen _ 16)|by rewrite length_imap].
    apply Forall_forall. intros l (i & layer & -> & _)%elem_of_lookup_imap.
    destruct (g !! i); [|simpl; lia].
    etransitivity; [apply length_omap_le|]. by rewrite length_seq.
Qed.

(** X13. After the active layer has been cleared, no tick triggers
    anything for that layer, in any column and whatever the layer
    settings. *)
Theorem cleared_layer_is_silent (s : Pad) (vols : list Number) (effs : list EffectType)
    (col : nat) :
  Forall (fun t => trig_idx t <> activeLayerIdx s)
         (tickCalls (grids (handleClear s)) vols effs col).
Proof.
  apply Forall_forall.
  intros t (idx & layer & r & _ & _ & Hcell & ->)%elem_of_tickCalls. simpl.
  intros ->. revert Hcell. simpl. unfold handleClear_update, cellAt. cbv zeta.
  destruct (grids s !! activeLayerIdx s) as [old|] eqn:Hold.
  - rewrite list_lookup_insert_eq by (by eapply lookup_lt_Some).
    apply emptyLayer_never_true.
  - by rewrite Hold.
Qed.
End TickFacts.

(** ** Simulation pass *)

Section FrameFacts.
Local Open Scope R_scope.

Lemma elem_of_drop_elem {A} (x : A) n (l : list A) : x ∈ drop n l -> x ∈ l.
Proof. intros Hx. rewrite <- (take_drop n l). apply elem_of_app. by right. Qed.

Lemma fallStep_identity eff :
  eff_id (fallStep eff) = eff_id eff /\ eff_type (fallStep eff) = eff_type eff /\
  eff_r (fallStep eff) = eff_r eff /\ eff_c (fallStep eff) = eff_c eff /\
  eff_startTime (fallStep eff) = eff_startTime eff /\
  eff_color (fallStep eff) = eff_color eff /\
  eff_layerIdx (fallStep eff) = eff_layerIdx eff /\
  eff_particles (fallStep eff) = eff_particles eff.
Proof. unfold fallStep. cbv zeta. case_decide; simpl; repeat split; done. Qed.

Lemma fallStep_floor eff : eff_y (fallStep eff) <= CONSTANTS.FLOOR_Y.
Proof. unfold fallStep. cbv zeta. case_decide as H; simpl in *; lra. Qed.

Lemma stepEffect_Some now eff eff' :
  stepEffect now eff = Some eff' ->
  sameOrigin eff eff' /\ keptAt now eff' /\
  (eff_type eff <> GRAVITY -> eff_type eff <> SPLASH -> eff' = eff).
Proof.
  unfold stepEffect, sameOrigin, keptAt. destruct (eff_type eff) eqn:Htype; cbv zeta.
  - case_decide; [done|]. intros [= <-]. rewrite Htype.
    split; [done|]. split; [lra|done].
  - destruct (_ && _ && _); case_decide as Hage; try done.
    intros [= <-]. pose proof (fallStep_identity eff) as (? & Ht & ? & ? & Hs & ? & ? & _).
    rewrite Ht, Htype, Hs. repeat split; try done; [lra|apply fallStep_floor].
  - case_decide as Hlen; [done|]. intros [= <-]. simpl. rewrite Htype.
    repeat split; try done.
    + intros Hnil. by rewrite Hnil in Hlen.
    + apply Forall_forall. intros p Hp. by apply list_elem_of_filter in Hp as [Hp _].
  - case_decide; [done|]. intros [= <-]. rewrite Htype.
    split; [done|]. split; [lra|done].
Qed.

Lemma elem_of_updatePhysics now effs eff' :
  eff' ∈ updatePhysics now effs ->
  exists eff, eff ∈ effs /\ stepEffect now eff = Some eff'.
Proof.
  unfold updatePhysics. case_decide as Hlen.
  - destruct effs; [by intros ?%elem_of_nil|done].
  - cbv zeta. intros (eff & Hin & Hstep)%list_elem_of_omap.
    exists eff. split; [by eapply elem_of_drop_elem|done].
Qed.

(** X14. A simulation pass never invents or re-labels an effect: every
    effect it returns comes from an effect of its input with the same id,
    archetype, origin row and column, creation time, color and owning
    layer, and a RIPPLE or STAR effect is returned exactly as it was. *)
Theorem frame_preserves_origin (now : R) (effs : list Effect) (eff' : Effect) :
  eff' ∈ updatePhysics now effs ->
  exists eff, eff ∈ effs /\ sameOrigin eff eff' /\
    (eff_type eff = RIPPLE \/ eff_type eff = STAR -> eff' = eff).
Proof.
  intros (eff & Hin & Hstep)%elem_of_updatePhysics.
  destruct (stepEffect_Some now eff eff' Hstep) as (Horigin & _ & Hsame).
  exists eff. split; [done|]. split; [done|].
  intros [Ht|Ht]; apply Hsame; rewrite Ht; done.
Qed.

Lemma frame_preserves_origin_witness :
  let ripple := mkEffect 0.25 RIPPLE 1 2 100 "#60a5fa" 0 0 0 [] in
  exists eff, eff ∈ [ripple] /\ sameOrigin eff ripple /\
    (eff_type eff = RIPPLE \/ eff_type eff = STAR -> ripple = eff).
Proof.
  intros ripple.
  apply (frame_preserves_origin 400 [ripple] ripple).
  unfold updatePhysics, stepEffect. simpl.
  rewrite decide_False by lra. apply list_elem_of_here.
Defined.

(** X15. What a simulation pass at time [now] leaves in the collection:
    a RIPPLE or STAR effect is at most 600 ms old, a GRAVITY effect is at
    most 3000 ms old and not below the floor row 15.5, and a SPLASH effect
    has at least one particle and only particles of positive life. *)
Theorem frame_expires_effects (now : R) (effs : list Effect) (eff' : Effect) :
  eff' ∈ updatePhysics now effs ->
  match eff_type eff' with
  | GRAVITY => now - eff_startTime eff' <= 3000 /\ eff_y eff' <= 15.5
  | SPLASH =>
      eff_particles eff' <> [] /\
      Forall (fun p => p !!! "life" > 0) (eff_particles eff')
  | _ => now - eff_startTime eff' <= 600
  end.
Proof.
  intros (eff & Hin & Hstep)%elem_of_updatePhysics.
  by destruct (stepEffect_Some now eff eff' Hstep) as (_ & Hkept & _).
Qed.

Lemma frame_expires_effects_witness :
  let star := mkEffect 0.5 STAR 1 2 100 "#fbbf24" 3 0 0 [] in
  400 - eff_startTime star <= 600.
Proof.
  intros star.
  apply (frame_expires_effects 400 [star] star).
  unfold updatePhysics, stepEffect. simpl.
  rewrite decide_False by lra. apply list_elem_of_here.
Defined.

(** X16. The fall of a GRAVITY effect: a step that stays above the floor
    adds the velocity to the position and 0.025 to the velocity; a step
    that would pass the floor puts the effect on the floor; in both cases
    the position afterwards is not below the floor row 15.5, and the
    origin, the owner and the creation time are untouched. *)
Theorem gravity_fall_step (eff : Effect) :
  eff_y (fallStep eff) <= 15.5 /\
  (eff_y eff + eff_dy eff <= 15.5 ->
   eff_y (fallStep eff) = eff_y eff + eff_dy eff /\
   eff_dy (fallStep eff) = eff_dy eff + 0.025) /\
  (eff_y eff + eff_dy eff > 15.5 -> eff_y (fallStep eff) = 15.5) /\
  sameOrigin eff (fallStep eff).
Proof.
  split; [apply fallStep_floor|]. split; [|split].
  - intros Hle. unfold fallStep. cbv zeta. simpl.
    rewrite decide_False by (unfold CONSTANTS.FLOOR_Y; lra). done.
  - intros Hgt. unfold fallStep. cbv zeta. simpl.
    rewrite decide_True by (unfold CONSTANTS.FLOOR_Y; lra). done.
  - pose proof (fallStep_identity eff) as (? & ? & ? & ? & ? & ? & ? & _).
    repeat split; done.
Qed.

Lemma gravity_fall_step_witness :
  let eff := mkEffect 0 GRAVITY 3 4 0 "#34d399" 1 3 0 [] in
  eff_y (fallStep eff) = eff_y eff + eff_dy eff /\
  eff_dy (fallStep eff) = eff_dy eff + 0.025.
Proof.
  intros eff. apply (gravity_fall_step eff). simpl. lra.
Defined.

(** X17. The particles of a new SPLASH effect, when every
    [Math.random ()] draw lies in [0, 1): each starts at the origin with
    life 1, a scale in [1, 2), and a velocity whose squared length is the
    square of a speed in [0.1, 0.4). *)
Theorem splash_particles_at_creation
    (now : R) (rand : nat -> R) (r c : R) (layerColor : string) (layerIdx : nat)
    (prev : list Effect) :
  (forall k, 0 <= rand k < 1) ->
  (length prev < 150)%nat ->
  exists eff,
    addVisualEffect now rand r c SPLASH layerColor layerIdx prev = prev ++ [eff] /\
    Forall (fun p =>
      p !!! "r" = 0 /\ p !!! "c" = 0 /\ p !!! "life" = 1 /\
      1 <= p !!! "scale" < 2 /\
      exists speed, 0.1 <= speed < 0.4 /\
        p !!! "dr" * p !!! "dr" + p !!! "dc" * p !!! "dc" = speed * speed)
      (eff_particles eff).
Proof.
  intros Hrand Hlen. unfold addVisualEffect.
  rewrite decide_False by (unfold CONSTANTS.MAX_EFFECTS; lia). cbv zeta.
  eexists. split; [reflexivity|]. unfold set_particles. cbn [eff_particles].
  apply Forall_fmap, Forall_forall. intros i _. cbv beta. unfold compose.
  pose proof (Hrand (1 + 2 * i)%nat) as Hs. pose proof (Hrand (2 + 2 * i)%nat) as Hc.
  unfold newParticle, define. cbv zeta.
  repeat (rewrite ?lookup_total_insert_eq; rewrite ?lookup_total_insert_ne by done).
  repeat split; try lra.
  exists (0.1 + rand (1 + 2 * i)%nat * 0.3). split; [lra|].
  set (a := PI * 2 * INR i / INR 12).
  pose proof (sin2_cos2 a) as Hsc. unfold Rsqr in Hsc. nra.
Qed.

Lemma splash_particles_at_creation_witness :
  exists eff,
    addVisualEffect 0 (fun _ => 0.5) 3 5 SPLASH "#f472b6" 2 [] = [] ++ [eff] /\
    Forall (fun p =>
      p !!! "r" = 0 /\ p !!! "c" = 0 /\ p !!! "life" = 1 /\
      1 <= p !!! "scale" < 2 /\
      exists speed, 0.1 <= speed < 0.4 /\
        p !!! "dr" * p !!! "dr" + p !!! "dc" * p !!! "dc" = speed * speed)
      (eff_particles eff).
Proof.
  apply (splash_particles_at_creation 0 (fun _ => 0.5) 3 5 "#f472b6" 2 []).
  - intros _. lra.
  - simpl. lia.
Defined.
End FrameFacts.

(** ** Brightness and rendering *)

Section RenderFacts.
Local Open Scope R_scope.

Lemma rev_filter {A} (P : A -> Prop) `{forall x, Decision (P x)} (l : list A) :
  rev (filter P l) = filter P (rev l).
Proof.
  induction l as [|x l IH]; [done|]. simpl rev. rewrite filter_app, <- IH.
  destruct (decide (P x)) as [Hx|Hx].
  - rewrite filter_cons_True by done. simpl rev.
    by rewrite (filter_cons_True P x []).
  - rewrite filter_cons_False by done.
    rewrite (filter_cons_False P x []) by done. by rewrite app_nil_r.
Qed.

Lemma brightnessLoop_filter a now r c visit b :
  brightnessLoop a now r c visit b =
  brightnessLoop a now r c (filter (fun eff => eff_layerIdx eff = a) visit) b.
Proof.
  revert b. induction visit as [|eff rest IH]; intros b; [done|].
  destruct (decide (eff_layerIdx eff = a)) as [Heq|Hne].
  - rewrite filter_cons_True by done. simpl.
    rewrite bool_decide_eq_true_2 by done. simpl.
    destruct (_ && _ && _); [apply IH|].
    case_decide; [done|apply IH].
  - rewrite filter_cons_False by done. simpl.
    rewrite bool_decide_eq_false_2 by done. simpl. apply IH.
Qed.

Lemma getCellBrightness_le_1 effects a now r c : getCellBrightness effects a now r c <= 1.
Proof. unfold getCellBrightness, Math_min. apply Rmin_l. Qed.

(** X18. The brightness of a cell depends on the effects of the active
    layer only: removing the effects of all other layers from the
    collection does not change the result, for any cell and any time. *)
Theorem brightness_ignores_other_layers
    (effects : list Effect) (activeLayerIdx : nat) (now r c : R) :
  getCellBrightness effects activeLayerIdx now r c =
  getCellBrightness (filter (fun eff => eff_layerIdx eff = activeLayerIdx) effects)
                    activeLayerIdx now r c.
Proof.
  unfold getCellBrightness. rewrite rev_filter. f_equal. apply brightnessLoop_filter.
Qed.

(** X19. The opacity the renderer gives a cell is always between 0 and 1,
    even when the brightness query is negative; an active cell that is
    not displaced by a GRAVITY effect is fully opaque, and an inactive one
    is never dimmer than 0.3 (0.5 under the scanner column). *)
Theorem cell_opacity_in_range
    (effects : list Effect) (activeLayerIdx : nat) (now : R) (currentCol : Z)
    (active : bool) (r c : nat) :
  0 <= cellOpacity effects activeLayerIdx now currentCol active r c <= 1 /\
  (displaced effects activeLayerIdx r c = false -> active = true ->
   cellOpacity effects activeLayerIdx now currentCol active r c = 1) /\
  (displaced effects activeLayerIdx r c = false -> active = false ->
   0.3 <= cellOpacity effects activeLayerIdx now currentCol active r c /\
   (currentCol = Z.of_nat c ->
    0.5 <= cellOpacity effects activeLayerIdx now currentCol active r c)).
Proof.
  unfold cellOpacity. cbv zeta.
  pose proof (getCellBrightness_le_1 effects activeLayerIdx now (INR r) (INR c)) as Hb.
  set (b := getCellBrightness _ _ _ _ _) in *.
  unfold Math_max.
  destruct (displaced effects activeLayerIdx r c), active; simpl;
    repeat split; try done; try lra;
    try (intros; case_bool_decide; try done);
    try case_bool_decide;
    try (apply Rmax_l); try (apply Rmax_lub; lra);
    try (etransitivity; [|apply Rmax_l]; lra).
Qed.

Lemma cell_opacity_in_range_witness :
  cellOpacity [] 0 0 (-1) true 3 5 = 1.
Proof.
  apply (cell_opacity_in_range [] 0 0 (-1) true 3 5); reflexivity.
Defined.
End RenderFacts.

(** ** Sequencer: transport *)

Section TransportFacts.
Local Open Scope R_scope.

Lemma ticks_shift n s : ticks (S n) s = ticks n (tick s).
Proof. induction n as [|n IH]; [done|]. simpl in *. by rewrite IH. Qed.

(** X20. Play and pause.  From a stopped state, [handleStart] installs
    the timer at column -1, so that the first tick plays column 0 and the
    tick after [n] more ticks plays column [n mod 16]; a second
    [handleStart] gives back the stopped state.  From a playing state, it
    removes the timer and resets the column to -1. *)
Theorem play_pause_transport (s : Sequencer) :
  reachable s ->
  (isPlaying s = false ->
   isPlaying (handleStart s) = true /\
   currentCol (handleStart s) = (-1)%Z /\
   currentCol (tick (handleStart s)) = 0%Z /\
   (forall n, currentCol (ticks (S n) (handleStart s)) = (Z.of_nat n mod 16)%Z) /\
   handleStart (handleStart s) = s) /\
  (isPlaying s = true ->
   isPlaying (handleStart s) = false /\ interval (handleStart s) = None /\
   currentCol (handleStart s) = (-1)%Z).
Proof.
  intros Hreach. destruct (reachable_inv s Hreach) as (Hb & Hc & Hp).
  split.
  - intros Hstop. rewrite Hstop in Hp. destruct Hp as [Hi Hcol].
    assert (Hstart : handleStart s
                     = mkSequencer true (-1) (bpm s) (Some (msPerBeat (bpm s)))).
    { unfold handleStart, sequencerEffect. simpl. rewrite Hstop. simpl.
      by rewrite Hcol. }
    rewrite Hstart. split; [done|]. split; [done|]. split; [done|]. split.
    + intros n. rewrite ticks_shift.
      change (tick (mkSequencer true (-1) (bpm s) (Some (msPerBeat (bpm s)))))
        with (mkSequencer true 0 (bpm s) (Some (msPerBeat (bpm s)))).
      pose proof (ticks_col n (mkSequencer true 0 (bpm s) (Some (msPerBeat (bpm s))))
                            (msPerBeat (bpm s)) eq_refl) as Hn.
      simpl in Hn. destruct Hn as [_ ->]; [lia|done].
    + unfold handleStart, sequencerEffect. simpl.
      destruct s as [p col b i]. simpl in *. by subst.
  - intros Hplay. unfold handleStart, sequencerEffect. simpl. by rewrite Hplay.
Qed.

Lemma play_pause_transport_witness :
  currentCol (tick (handleStart mounted)) = 0%Z /\
  currentCol (ticks 20 (handleStart mounted)) = 3%Z /\
  handleStart (handleStart mounted) = mounted.
Proof.
  destruct (play_pause_transport mounted reach_mount) as [Hstop _].
  destruct (Hstop eq_refl) as (_ & _ & H1 & Hn & Hback).
  split; [exact H1|]. split; [exact (Hn 19%nat)|exact Hback].
Defined.

Lemma period_of_tempo b :
  CONSTANTS.MIN_BPM <= b <= CONSTANTS.MAX_BPM ->
  exists x, msPerBeat (Num b) = Num x /\ 62.5 <= x <= 250.
Proof.
  unfold CONSTANTS.MIN_BPM, CONSTANTS.MAX_BPM. intros Hb.
  rewrite msPerBeat_in_range by (unfold CONSTANTS.MIN_BPM; lra).
  eexists. split; [done|].
  assert (Hpos : 0 < b) by lra.
  split.
  - apply (Rmult_le_reg_r (b * 4)); [lra|]. field_simplify; lra.
  - apply (Rmult_le_reg_r (b * 4)); [lra|]. field_simplify; lra.
Qed.

(** X21. A tempo change, to a number or to [NaN], never moves the step
    column or the playing flag.  In every state the period of the
    installed timer is [NaN] or lies between 62.5 ms (240 BPM) and 250 ms
    (60 BPM); it lies between them when every tempo entered was a
    number. *)
Theorem tempo_change_keeps_position (s : Sequencer) (v : Number) :
  reachable s ->
  currentCol (handleBpmChange v s) = currentCol s /\
  isPlaying (handleBpmChange v s) = isPlaying s /\
  (forall p, interval s = Some p ->
     p = NaN \/ exists x, p = Num x /\ 62.5 <= x <= 250) /\
  (forall p, interval (handleBpmChange v s) = Some p ->
     p = NaN \/ exists x, p = Num x /\ 62.5 <= x <= 250) /\
  (reachableNum s -> forall p, interval s = Some p ->
     exists x, p = Num x /\ 62.5 <= x <= 250).
Proof.
  intros Hreach.
  assert (Hplaying : forall s' p, sequencerInv s' -> interval s' = Some p ->
                       p = msPerBeat (bpm s')).
  { intros s' p (_ & _ & Hi) Hp.
    destruct (isPlaying s'); [congruence|destruct Hi; congruence]. }
  assert (Hperiod : forall s', reachable s' -> forall p, interval s' = Some p ->
                      p = NaN \/ exists x, p = Num x /\ 62.5 <= x <= 250).
  { intros s' Hr p Hp. pose proof (reachable_inv s' Hr) as Hinv.
    rewrite (Hplaying s' p Hinv Hp).
    destruct Hinv as ([Hn|(b & Hb & Hrange)] & _ & _).
    - left. by rewrite Hn.
    - right. rewrite Hb. by apply period_of_tempo. }
  destruct (reachable_inv s Hreach) as (_ & _ & Hp).
  split; [|split; [|split; [|split]]].
  - unfold handleBpmChange, sequencerEffect. simpl.
    destruct (isPlaying s); simpl; [done|]. by destruct Hp as [_ ->].
  - unfold handleBpmChange, sequencerEffect. simpl. by destruct (isPlaying s).
  - by apply Hperiod.
  - apply Hperiod. by apply reach_bpm.
  - intros HreachN p Hip.
    rewrite (Hplaying s p (reachable_inv s Hreach) Hip).
    destruct (reachableNum_tempo s HreachN) as (b & Hb & Hrange).
    rewrite Hb. by apply period_of_tempo.
Qed.

Lemma tempo_change_keeps_position_witness :
  currentCol (handleBpmChange NaN (tick (handleStart mounted)))
  = currentCol (tick (handleStart mounted)).
Proof.
  apply (tempo_change_keeps_position (tick (handleStart mounted)) NaN).
  apply reach_tick, reach_start, reach_mount.
Defined.
End TransportFacts.
